(** * Pose graph manager of the collaborative SLAM back-end

    A shallow embedding of [src/back_end/pose_graph_manager.cpp]: the member
    variables of [PoseGraphManager] become a record, every callback becomes a
    function from a state to an outcome (a new state and the messages it
    published, or the failure the C++ runs into), and the properties of the
    specification are stated and settled over these functions. *)

From stdpp Require Import gmap list sorting.

Set Warnings "-clear-no-such-hyp".
Local Open Scope N_scope.

(** ** Outcomes

    The C++ can leave a callback in three abnormal ways that matter here: an
    array access outside its allocation, a dereference of a null
    [shared_ptr], and the exception [gtsam::ValuesKeyAlreadyExists].  The
    [while] loop of the search is run with fuel; [OutOfFuel] is shown
    unreachable for the fuel the resolver uses. *)

Inductive failure : Type :=
  | OutOfBounds (index : N)
  | NullPointer
  | ValuesKeyAlreadyExists
  | OutOfFuel.

Inductive outcome (A : Type) : Type :=
  | Done (a : A)
  | Failed (e : failure).
Arguments Done {A} a.
Arguments Failed {A} e.

#[global] Instance outcome_ret : MRet outcome := fun A a => Done a.
#[global] Instance outcome_bind : MBind outcome := fun A B f c =>
  match c with
  | Done a => f a
  | Failed e => Failed e
  end.

(** A range-based [for] whose body can fail. *)
Fixpoint for_each {A S : Type} (body : A -> S -> outcome S) (l : list A) (st : S)
  : outcome S :=
  match l with
  | [] => Done st
  | x :: rest => st' ← body x st; for_each body rest st'
  end.

(** The doubly nested index loop
    [for (i = 0; i < n; i++) for (j = i + 1; j < n; j++) body(v[i], v[j])]. *)
Fixpoint for_pairs {A S : Type} (body : A -> A -> S -> S) (l : list A) (st : S) : S :=
  match l with
  | [] => st
  | x :: rest => for_pairs body rest (fold_left (fun acc y => body x y acc) rest st)
  end.

(** The pairs [(v[i], v[j])], [i < j], in the order the nested loop meets them. *)
Fixpoint index_pairs {A : Type} (l : list A) : list (A * A) :=
  match l with
  | [] => []
  | x :: rest => map (pair x) rest ++ index_pairs rest
  end.

(** ** External collaborators

    [gtsam::Pose3] and the noise model come from the GTSAM library; the
    manager only composes and inverts poses.  The optimizer is a black box
    from a graph and initial values to values. *)

Class Gtsam : Type := {
  Pose3 : Type;
  pose_compose : Pose3 -> Pose3 -> Pose3;
  pose_inverse : Pose3 -> Pose3;
  pose_identity : Pose3;
  NoiseModel : Type;
  default_noise_model_ : NoiseModel;
}.

(** The macros [GRAPH_LABEL], [ROBOT_LABEL] and [ROBOT_ID] are defined in a
    header that is not part of the sources at hand, so they are parameters.
    Labels are [unsigned char]s, robot ids are [unsigned int]s. *)
Class Labels : Type := {
  GRAPH_LABEL : N;
  ROBOT_LABEL : N -> N;
  ROBOT_ID : N -> N;
}.

(** [gtsam::LabeledSymbol]: a character, a label and an index.  The default
    constructor gives the all-zero symbol, which the manager uses as the
    sentinel for "no keyframe yet". *)
Record LabeledSymbol : Type := mkSymbol {
  sym_chr : N;
  sym_label : N;
  sym_index : N;
}.

#[global] Instance LabeledSymbol_eq_dec : EqDecision LabeledSymbol.
Proof. solve_decision. Defined.

#[global] Instance LabeledSymbol_countable : Countable LabeledSymbol.
Proof.
  refine (inj_countable' (fun s => (sym_chr s, sym_label s, sym_index s))
                         (fun t => mkSymbol t.1.1 t.1.2 t.2) _).
  by intros [].
Defined.

Definition default_symbol : LabeledSymbol := mkSymbol 0 0 0.

Inductive OptimizerState : Type :=
  | IDLE
  | WAITING
  | POSEGRAPH_COLLECTION
  | OPTIMIZATION.

#[global] Instance OptimizerState_eq_dec : EqDecision OptimizerState.
Proof. solve_decision. Defined.

(** A [gtsam::NonlinearFactor] as the manager sees it: a
    [BetweenFactor<Pose3>], the prior that [addPrior] appends, or any other
    factor (for which the downcast to [BetweenFactor<Pose3>] gives null). *)
Inductive Factor `{G : Gtsam} : Type :=
  | BetweenFactor (key1 key2 : LabeledSymbol) (measured : Pose3) (noise : NoiseModel)
  | PriorFactor (key : LabeledSymbol) (prior : Pose3) (noise : NoiseModel)
  | OtherFactor.

(** [gtsam::GncOptimizer<GncParams<LevenbergMarquardtParams>>::optimize]. *)
Class GncOptimizer `{G : Gtsam} : Type := {
  gnc_optimize : list Factor -> gmap LabeledSymbol Pose3 -> gmap LabeledSymbol Pose3;
}.

(** [gtsam::Values], keyed by symbol. *)
Abbreviation Values := (gmap LabeledSymbol Pose3).

Section Manager.
Context `{G : Gtsam} `{L : Labels} `{Opt : !GncOptimizer}.

(** The implicit conversion to [unsigned char] at the [LabeledSymbol]
    constructor. *)
Definition to_uchar (x : N) : N := x mod 256.

(** [Values::insert(key, value)] throws when the key is present. *)
Definition values_insert (key : LabeledSymbol) (value : Pose3) (vs : Values)
  : outcome Values :=
  match vs !! key with
  | Some _ => Failed ValuesKeyAlreadyExists
  | None => Done (<[key := value]> vs)
  end.

(** [Values::insert(const Values&)] inserts every entry of its argument with
    the throwing single insert; it goes through exactly when no key of the
    argument is present. *)
Definition values_insert_all (src vs : Values) : outcome Values :=
  if bool_decide (map_Forall (fun key _ => vs !! key = None) src)
  then Done (vs ∪ src)
  else Failed ValuesKeyAlreadyExists.

(** ** The member variables *)

Record PoseGraphManager : Type := mkManager {
  nb_robots_ : N;
  robot_id_ : N;
  max_waiting_time_sec_ : Z;
  pose_graph_ : list Factor;
  current_pose_estimates_ : Values;
  latest_local_symbol_ : LabeledSymbol;
  latest_local_pose_ : Pose3;
  inter_robot_loop_closures_ : gmap (N * N) (list Factor);
  current_neighbors_ids_ : list N;
  received_pose_graphs_ : gmap N bool;
  other_robots_graph_and_estimates_ : gmap N (list Factor * Values);
  received_pose_graphs_connectivity_ : gmap N (list N);
  optimizer_state_ : OptimizerState;
  is_waiting_ : bool;
  start_waiting_time_ : Z;
}.

(** [std::map::operator[]] on a missing key default-constructs the value;
    reading through it is a lookup with that default.  (The entry it leaves
    behind holds the default and is invisible to every later read.) *)
Definition loop_closures_at (m : PoseGraphManager) (key : N * N) : list Factor :=
  default [] (inter_robot_loop_closures_ m !! key).

Definition connectivity_at (m : PoseGraphManager) (id : N) : list N :=
  default [] (received_pose_graphs_connectivity_ m !! id).

Definition flag_at (flags : gmap N bool) (id : N) : bool :=
  default false (flags !! id).

(** ** Connectivity resolver: [connected_robot_pose_graph] *)

Record bfs_state : Type := mkBfs {
  is_robot_connected : gmap N bool;
  visited : list bool;
  queue : list N;
}.

(** [std::map::insert] keeps an existing entry. *)
Definition map_insert_new {K V : Type} `{Countable K} (k : K) (v : V) (m : gmap K V)
  : gmap K V :=
  match m !! k with
  | Some _ => m
  | None => <[k := v]> m
  end.

(** Body of the inner [for]: mark [id] connected, then read [visited[id]];
    the array has the length it was allocated with and nothing more. *)
Definition visit (id : N) (st : bfs_state) : outcome bfs_state :=
  let connected := <[id := true]> (is_robot_connected st) in
  match visited st !! N.to_nat id with
  | None => Failed (OutOfBounds id)
  | Some true => Done (mkBfs connected (visited st) (queue st))
  | Some false =>
      Done (mkBfs connected (<[N.to_nat id := true]> (visited st)) (queue st ++ [id]))
  end.

Fixpoint bfs_loop (m : PoseGraphManager) (fuel : nat) (st : bfs_state)
  : outcome bfs_state :=
  match fuel with
  | O => Failed OutOfFuel
  | S fuel' =>
      match queue st with
      | [] => Done st
      | current_id :: rest =>
          st' ← for_each visit (connectivity_at m current_id)
                  (mkBfs (is_robot_connected st) (visited st) rest);
          bfs_loop m fuel' st'
      end
  end.

Definition bfs_init (m : PoseGraphManager) : outcome bfs_state :=
  let connected :=
    fold_left (fun acc id => map_insert_new id false acc) (current_neighbors_ids_ m)
              (map_insert_new (robot_id_ m) true ∅) in
  let visited := replicate (length (current_neighbors_ids_ m)) false in
  match visited !! N.to_nat (robot_id_ m) with
  | None => Failed (OutOfBounds (robot_id_ m))
  | Some _ =>
      Done (mkBfs connected (<[N.to_nat (robot_id_ m) := true]> visited) [robot_id_ m])
  end.

Definition connected_robot_pose_graph_fuel (fuel : nat) (m : PoseGraphManager)
  : outcome (gmap N bool) :=
  st ← bfs_init m;
  st' ← bfs_loop m fuel st;
  mret (is_robot_connected st').

(** Every slot of [visited] is pushed on the queue at most once, so the
    [while] loop runs at most once per slot, plus the final test. *)
Definition connected_robot_pose_graph (m : PoseGraphManager) : outcome (gmap N bool) :=
  connected_robot_pose_graph_fuel (S (length (current_neighbors_ids_ m))) m.

(** ** Messages

    The conversions between ROS messages and GTSAM objects
    ([odometry_msg_to_pose3], [gtsam_values_to_msg], [edges_msg_to_gtsam],
    ...) live outside this file; messages carry the converted payload. *)

Record KeyframeOdom : Type := mkKeyframeOdom {
  kf_id : N;
  kf_odom : Pose3;
}.

Record InterRobotLoopClosure : Type := mkLoopClosure {
  lc_success : bool;
  lc_robot0_id : N;
  lc_robot0_image_id : N;
  lc_robot1_id : N;
  lc_robot1_image_id : N;
  lc_transform : Pose3;
}.

Record PoseGraphMsg : Type := mkPoseGraphMsg {
  pg_robot_id : N;
  pg_values : Values;
  pg_edges : list Factor;
  pg_connected_robots : list N;
}.

Inductive Publication : Type :=
  | pub_get_current_neighbors
  | pub_get_pose_graph (target : N) (ids : list N)
  | pub_pose_graph (msg : PoseGraphMsg)
  | pub_optimization_result (success : bool) (factors : list Factor) (estimates : Values)
  | pub_optimizer_state (state : OptimizerState).

(** ** Field updates *)

Definition with_local_graph (m : PoseGraphManager) (graph : list Factor)
    (estimates : Values) (symbol : LabeledSymbol) (pose : Pose3) : PoseGraphManager :=
  mkManager (nb_robots_ m) (robot_id_ m) (max_waiting_time_sec_ m)
    graph estimates symbol pose
    (inter_robot_loop_closures_ m) (current_neighbors_ids_ m)
    (received_pose_graphs_ m) (other_robots_graph_and_estimates_ m)
    (received_pose_graphs_connectivity_ m)
    (optimizer_state_ m) (is_waiting_ m) (start_waiting_time_ m).

Definition with_loop_closures (m : PoseGraphManager)
    (store : gmap (N * N) (list Factor)) : PoseGraphManager :=
  mkManager (nb_robots_ m) (robot_id_ m) (max_waiting_time_sec_ m)
    (pose_graph_ m) (current_pose_estimates_ m)
    (latest_local_symbol_ m) (latest_local_pose_ m)
    store (current_neighbors_ids_ m)
    (received_pose_graphs_ m) (other_robots_graph_and_estimates_ m)
    (received_pose_graphs_connectivity_ m)
    (optimizer_state_ m) (is_waiting_ m) (start_waiting_time_ m).

Definition with_neighbors (m : PoseGraphManager) (ids : list N) : PoseGraphManager :=
  mkManager (nb_robots_ m) (robot_id_ m) (max_waiting_time_sec_ m)
    (pose_graph_ m) (current_pose_estimates_ m)
    (latest_local_symbol_ m) (latest_local_pose_ m)
    (inter_robot_loop_closures_ m) ids
    (received_pose_graphs_ m) (other_robots_graph_and_estimates_ m)
    (received_pose_graphs_connectivity_ m)
    (optimizer_state_ m) (is_waiting_ m) (start_waiting_time_ m).

Definition with_exchange (m : PoseGraphManager) (flags : gmap N bool)
    (others : gmap N (list Factor * Values)) (connectivity : gmap N (list N))
  : PoseGraphManager :=
  mkManager (nb_robots_ m) (robot_id_ m) (max_waiting_time_sec_ m)
    (pose_graph_ m) (current_pose_estimates_ m)
    (latest_local_symbol_ m) (latest_local_pose_ m)
    (inter_robot_loop_closures_ m) (current_neighbors_ids_ m)
    flags others connectivity
    (optimizer_state_ m) (is_waiting_ m) (start_waiting_time_ m).

Definition with_optimizer_state (m : PoseGraphManager) (state : OptimizerState)
  : PoseGraphManager :=
  mkManager (nb_robots_ m) (robot_id_ m) (max_waiting_time_sec_ m)
    (pose_graph_ m) (current_pose_estimates_ m)
    (latest_local_symbol_ m) (latest_local_pose_ m)
    (inter_robot_loop_closures_ m) (current_neighbors_ids_ m)
    (received_pose_graphs_ m) (other_robots_graph_and_estimates_ m)
    (received_pose_graphs_connectivity_ m)
    state (is_waiting_ m) (start_waiting_time_ m).

Definition with_waiting (m : PoseGraphManager) (waiting : bool) (since : Z)
  : PoseGraphManager :=
  mkManager (nb_robots_ m) (robot_id_ m) (max_waiting_time_sec_ m)
    (pose_graph_ m) (current_pose_estimates_ m)
    (latest_local_symbol_ m) (latest_local_pose_ m)
    (inter_robot_loop_closures_ m) (current_neighbors_ids_ m)
    (received_pose_graphs_ m) (other_robots_graph_and_estimates_ m)
    (received_pose_graphs_connectivity_ m)
    (optimizer_state_ m) waiting since.

(** ** Constructor

    Times and durations are in nanoseconds, as in [rclcpp::Time] and
    [rclcpp::Duration]. *)

Definition ids_below (n : N) : list N := map N.of_nat (seq 0 (N.to_nat n)).

Definition PoseGraphManager_new (nb_robots robot_id : N) (max_waiting_param : Z)
  : PoseGraphManager :=
  mkManager nb_robots robot_id (max_waiting_param * 1000000000)%Z
    [] ∅ default_symbol pose_identity
    (for_pairs (fun i j store => map_insert_new (i, j) [] store) (ids_below nb_robots) ∅)
    []
    (fold_left (fun flags i => map_insert_new i false flags) (ids_below nb_robots) ∅)
    ∅ ∅
    IDLE false 0%Z.

(** ** Exchange bookkeeping *)

Definition reinitialize_received_pose_graphs (m : PoseGraphManager) : PoseGraphManager :=
  with_exchange m
    (fold_left (fun flags i => <[i := false]> flags) (ids_below (nb_robots_ m))
               (received_pose_graphs_ m))
    ∅ ∅.

Definition check_received_pose_graphs (m : PoseGraphManager) : bool :=
  fold_left (fun received_all id => received_all && flag_at (received_pose_graphs_ m) id)
            (current_neighbors_ids_ m) true.

(** ** Local graph builder: [odometry_callback] *)

Definition local_symbol (m : PoseGraphManager) (index : N) : LabeledSymbol :=
  mkSymbol (to_uchar GRAPH_LABEL) (to_uchar (ROBOT_LABEL (robot_id_ m))) index.

Definition odometry_callback (msg : KeyframeOdom) (m : PoseGraphManager)
  : outcome PoseGraphManager :=
  let current_estimate := kf_odom msg in
  let symbol := local_symbol m (kf_id msg) in
  estimates ← values_insert symbol current_estimate (current_pose_estimates_ m);
  let graph :=
    if decide (latest_local_symbol_ m ≠ default_symbol)
    then
      let odom_diff := pose_compose current_estimate (pose_inverse (latest_local_pose_ m)) in
      pose_graph_ m ++
        [BetweenFactor (latest_local_symbol_ m) symbol odom_diff default_noise_model_]
    else pose_graph_ m in
  mret (with_local_graph m graph estimates symbol current_estimate).

(** ** Loop-closure store: [inter_robot_loop_closure_callback] *)

Definition inter_robot_loop_closure_callback (msg : InterRobotLoopClosure)
    (m : PoseGraphManager) : PoseGraphManager :=
  if lc_success msg then
    let measurement := lc_transform msg in
    let robot0_c := to_uchar (ROBOT_LABEL (lc_robot0_id msg)) in
    let symbol_from := mkSymbol (to_uchar GRAPH_LABEL) robot0_c (lc_robot0_image_id msg) in
    let robot1_c := to_uchar (ROBOT_LABEL (lc_robot1_id msg)) in
    let symbol_to := mkSymbol (to_uchar GRAPH_LABEL) robot1_c (lc_robot1_image_id msg) in
    let factor := BetweenFactor symbol_from symbol_to measurement default_noise_model_ in
    let key := (N.min (lc_robot0_id msg) (lc_robot1_id msg),
                N.max (lc_robot0_id msg) (lc_robot1_id msg)) in
    with_loop_closures m
      (<[key := loop_closures_at m key ++ [factor]]> (inter_robot_loop_closures_ m))
  else m.

(** ** Waiting *)

Definition start_waiting (now : Z) (m : PoseGraphManager) : PoseGraphManager :=
  with_waiting (with_optimizer_state m WAITING) true now.

Definition end_waiting (m : PoseGraphManager) : PoseGraphManager :=
  with_waiting m false (start_waiting_time_ m).

Definition check_waiting_timeout (now : Z) (m : PoseGraphManager) : PoseGraphManager :=
  if decide (now - start_waiting_time_ m > max_waiting_time_sec_ m)%Z
  then with_optimizer_state (end_waiting m) IDLE
  else m.

Definition current_neighbors_callback (ids : list N) (m : PoseGraphManager)
  : PoseGraphManager :=
  end_waiting (with_optimizer_state (with_neighbors m ids) POSEGRAPH_COLLECTION).

(** ** Serving a sub-graph: [get_pose_graph_callback] *)

(** [std::set<unsigned int>::insert], the set kept as its ascending
    iteration order. *)
Fixpoint set_insert (x : N) (s : list N) : list N :=
  match s with
  | [] => [x]
  | y :: rest =>
      if x <? y then x :: s
      else if x =? y then s
      else y :: set_insert x rest
  end.

Definition serve_pair (m : PoseGraphManager) (a b : N) (acc : list Factor * list N)
  : list Factor * list N :=
  let min_robot_id := N.min a b in
  let max_robot_id := N.max a b in
  if (0 <? length (loop_closures_at m (min_robot_id, max_robot_id)))%nat
  then
    (if min_robot_id =? robot_id_ m
     then acc.1 ++ loop_closures_at m (min_robot_id, max_robot_id)
     else acc.1,
     set_insert max_robot_id acc.2)
  else acc.

Definition get_pose_graph_callback (ids : list N) (m : PoseGraphManager) : PoseGraphMsg :=
  let '(graph, connected_robots) := for_pairs (serve_pair m) ids (pose_graph_ m, []) in
  mkPoseGraphMsg (robot_id_ m) (current_pose_estimates_ m) graph connected_robots.

(** ** Receiving a sub-graph: [pose_graph_callback] *)

Definition record_pose_graph (msg : PoseGraphMsg) (m : PoseGraphManager)
  : PoseGraphManager :=
  with_exchange m
    (<[pg_robot_id msg := true]> (received_pose_graphs_ m))
    (map_insert_new (pg_robot_id msg) (pg_edges msg, pg_values msg)
                    (other_robots_graph_and_estimates_ m))
    (map_insert_new (pg_robot_id msg) (pg_connected_robots msg)
                    (received_pose_graphs_connectivity_ m)).

Definition pose_graph_callback (msg : PoseGraphMsg) (m : PoseGraphManager)
  : PoseGraphManager :=
  let m' := record_pose_graph msg m in
  if check_received_pose_graphs m'
  then with_optimizer_state (end_waiting m') OPTIMIZATION
  else m'.

(** ** Aggregator: [aggregate_pose_graphs] *)

(** The robot id a key of a factor belongs to:
    [ROBOT_ID(gtsam::LabeledSymbol(key).label())]. *)
Definition robot_of (key : LabeledSymbol) : N := ROBOT_ID (sym_label key).

Definition add_loop_closures (m : PoseGraphManager) (connected : gmap N bool)
    (a b : N) (graph : list Factor) : list Factor :=
  if flag_at connected a && flag_at connected b
  then graph ++ loop_closures_at m (N.min a b, N.max a b)
  else graph.

Definition add_neighbor_estimates (m : PoseGraphManager) (connected : gmap N bool)
    (id : N) (estimates : Values) : outcome Values :=
  if flag_at connected id
  then
    match other_robots_graph_and_estimates_ m !! id with
    | None => Failed NullPointer
    | Some graph_and_estimates => values_insert_all graph_and_estimates.2 estimates
    end
  else Done estimates.

(** The downcast gives null for anything but a between-factor, and the next
    statement calls [key1()] through the result. *)
Definition add_received_factor (connected : gmap N bool) (factor_ : Factor)
    (graph : list Factor) : outcome (list Factor) :=
  match factor_ with
  | BetweenFactor key1 key2 _ _ =>
      let robot0_id := robot_of key1 in
      let robot1_id := robot_of key2 in
      if flag_at connected robot0_id && flag_at connected robot1_id
      then Done (graph ++ [factor_])
      else Done graph
  | _ => Failed NullPointer
  end.

Definition add_neighbor_factors (m : PoseGraphManager) (connected : gmap N bool)
    (id : N) (graph : list Factor) : outcome (list Factor) :=
  match other_robots_graph_and_estimates_ m !! id with
  | None => Failed NullPointer
  | Some graph_and_estimates =>
      for_each (add_received_factor connected) graph_and_estimates.1 graph
  end.

Definition aggregate_pose_graphs (m : PoseGraphManager)
  : outcome (list Factor * Values) :=
  is_pose_graph_connected ← connected_robot_pose_graph m;
  let included_robots_ids := current_neighbors_ids_ m ++ [robot_id_ m] in
  let graph :=
    for_pairs (add_loop_closures m is_pose_graph_connected) included_robots_ids
              (pose_graph_ m) in
  estimates ← values_insert_all (current_pose_estimates_ m) ∅;
  estimates ← for_each (add_neighbor_estimates m is_pose_graph_connected)
                (current_neighbors_ids_ m) estimates;
  graph ← for_each (add_neighbor_factors m is_pose_graph_connected)
            (current_neighbors_ids_ m) graph;
  mret (graph, estimates).

(** ** Optimizer invocation: [perform_optimization] *)

Definition perform_optimization (m : PoseGraphManager) : outcome Publication :=
  graph_and_estimates ← aggregate_pose_graphs m;
  let first_symbol := local_symbol m 0 in
  let graph :=
    graph_and_estimates.1 ++ [PriorFactor first_symbol pose_identity default_noise_model_] in
  let result := gnc_optimize graph graph_and_estimates.2 in
  mret (pub_optimization_result true graph result).

(** ** Timers *)

Definition optimization_callback (now : Z) (m : PoseGraphManager)
  : PoseGraphManager * list Publication :=
  if decide (optimizer_state_ m = IDLE)
  then (start_waiting now (reinitialize_received_pose_graphs m), [pub_get_current_neighbors])
  else (m, []).

(** [get_pose_graph_publishers_] has one publisher per id below
    [nb_robots_]; [operator[]] on any other id gives a null pointer. *)
Definition request_pose_graph (m : PoseGraphManager) (id : N) (sent : list Publication)
  : outcome (list Publication) :=
  if id <? nb_robots_ m
  then Done (sent ++ [pub_get_pose_graph id (current_neighbors_ids_ m ++ [robot_id_ m])])
  else Failed NullPointer.

Definition optimization_loop_body (now : Z) (m : PoseGraphManager)
  : outcome (PoseGraphManager * list Publication) :=
  if decide (current_pose_estimates_ m = ∅) then Done (m, [])
  else
    match optimizer_state_ m with
    | POSEGRAPH_COLLECTION =>
        if (0 <? length (current_neighbors_ids_ m))%nat
        then
          sent ← for_each (request_pose_graph m) (current_neighbors_ids_ m) [];
          mret (start_waiting now m, sent)
        else Done (with_optimizer_state m IDLE, [])
    | OPTIMIZATION =>
        result ← perform_optimization m;
        mret (with_optimizer_state m IDLE, [result])
    | WAITING => Done (check_waiting_timeout now m, [])
    | IDLE => Done (m, [])
    end.

Definition optimization_loop_callback (now : Z) (m : PoseGraphManager)
  : outcome (PoseGraphManager * list Publication) :=
  r ← optimization_loop_body now m;
  mret (r.1, r.2 ++ [pub_optimizer_state (optimizer_state_ r.1)]).

(** ** The executor

    Callbacks and timers run to completion one after the other. *)

Inductive Event : Type :=
  | ev_keyframe_odom (msg : KeyframeOdom)
  | ev_inter_robot_loop_closure (msg : InterRobotLoopClosure)
  | ev_current_neighbors (ids : list N)
  | ev_get_pose_graph (ids : list N)
  | ev_pose_graph (msg : PoseGraphMsg)
  | ev_optimization_timer (now : Z)
  | ev_optimization_loop_timer (now : Z).

Definition step (e : Event) (m : PoseGraphManager)
  : outcome (PoseGraphManager * list Publication) :=
  match e with
  | ev_keyframe_odom msg => m' ← odometry_callback msg m; mret (m', [])
  | ev_inter_robot_loop_closure msg => Done (inter_robot_loop_closure_callback msg m, [])
  | ev_current_neighbors ids => Done (current_neighbors_callback ids m, [])
  | ev_get_pose_graph ids => Done (m, [pub_pose_graph (get_pose_graph_callback ids m)])
  | ev_pose_graph msg => Done (pose_graph_callback msg m, [])
  | ev_optimization_timer now => Done (optimization_callback now m)
  | ev_optimization_loop_timer now => optimization_loop_callback now m
  end.

(** Runs the events in order; the publications made before a failure stay
    published. *)
Fixpoint run (events : list Event) (m : PoseGraphManager)
  : list Publication * outcome PoseGraphManager :=
  match events with
  | [] => ([], Done m)
  | e :: rest =>
      match step e m with
      | Done (m', out) => let r := run rest m' in (out ++ r.1, r.2)
      | Failed err => ([], Failed err)
      end
  end.

End Manager.

(** ** A small fleet to run the model on *)

Module Fleet.

(** Poses on a line: composition is addition. *)
#[export] Instance line_poses : Gtsam := {|
  Pose3 := Z;
  pose_compose := Z.add;
  pose_inverse := Z.opp;
  pose_identity := 0%Z;
  NoiseModel := unit;
  default_noise_model_ := tt;
|}.

(** Modelled from the spec: the label macros of the missing header, which the
    spec describes as a printable-ASCII offset that round-trips on the
    supported robot ids: ['A' + id] one way, [label - 'A'] converted to
    [unsigned int] the other way; the graph label is a letter. *)
#[export] Instance ascii_labels : Labels := {|
  GRAPH_LABEL := 103;
  ROBOT_LABEL := fun id => 65 + id;
  ROBOT_ID := fun label => (label + 4294967296 - 65) mod 4294967296;
|}.

(** An optimizer that returns its initial values. *)
#[export] Instance keep_initial_values : GncOptimizer := {|
  gnc_optimize := fun _ values => values;
|}.

(** A fleet of eight robots, seen from robot 0, with a timeout of 60
    seconds. *)
Definition robot0 : PoseGraphManager := PoseGraphManager_new 8 0 60.

(** The final state of a run that does not fail. *)
Definition final_state (events : list Event) (m : PoseGraphManager) : PoseGraphManager :=
  match (run events m).2 with
  | Done m' => m'
  | Failed _ => m
  end.

Definition symbol_of (robot index : N) : LabeledSymbol := mkSymbol 103 (65 + robot) index.

Definition between (r0 kf0 r1 kf1 : N) (measured : Z) : Factor :=
  BetweenFactor (symbol_of r0 kf0) (symbol_of r1 kf1) measured tt.

(** Three keyframes one unit apart. *)
Definition three_keyframes : list KeyframeOdom :=
  [mkKeyframeOdom 0 0%Z; mkKeyframeOdom 1 1%Z; mkKeyframeOdom 2 2%Z].

Definition closure_0_1 : InterRobotLoopClosure := mkLoopClosure true 0 1 1 0 0%Z.
Definition closure_0_2 : InterRobotLoopClosure := mkLoopClosure true 0 2 2 1 0%Z.
Definition closure_1_2 : InterRobotLoopClosure := mkLoopClosure true 1 0 2 0 0%Z.

(** Robot 0 with two keyframes, a loop closure with robot 1, and the
    neighbours 1 and 2. *)
Definition local_run : list Event :=
  [ev_keyframe_odom (mkKeyframeOdom 0 0%Z);
   ev_keyframe_odom (mkKeyframeOdom 1 1%Z);
   ev_inter_robot_loop_closure closure_0_1;
   ev_current_neighbors [1; 2]].

(** Robot 0's own answer to a request for the same round; the topic is
    fleet-wide, so robot 0 receives it too. *)
Definition own_answer : PoseGraphMsg :=
  get_pose_graph_callback [1; 2; 0] (final_state local_run robot0).

Definition values_of_1 : Values := {[symbol_of 1 0 := 0%Z; symbol_of 1 1 := 1%Z]}.

Definition answer_of_1 : PoseGraphMsg :=
  mkPoseGraphMsg 1 values_of_1 [between 1 0 1 1 1] [1].

Definition answer_of_2 : PoseGraphMsg :=
  mkPoseGraphMsg 2 {[symbol_of 2 0 := 0%Z]} [between 2 0 2 1 1] [].

(** A round in which robot 1 is connected and robot 2 is an island. *)
Definition collected_with (from_1 : PoseGraphMsg) : PoseGraphManager :=
  final_state
    (local_run ++ [ev_pose_graph own_answer; ev_pose_graph from_1; ev_pose_graph answer_of_2])
    robot0.

Definition collected : PoseGraphManager := collected_with answer_of_1.

Definition joint_of (m : PoseGraphManager) : list Factor * Values :=
  match aggregate_pose_graphs m with
  | Done r => r
  | Failed _ => ([], ∅)
  end.

Definition connected_of (m : PoseGraphManager) : gmap N bool :=
  match connected_robot_pose_graph m with
  | Done c => c
  | Failed _ => ∅
  end.

(** The same round with a factor from robot 1 that is not a
    between-factor. *)
Definition malformed_answer_of_1 : PoseGraphMsg :=
  mkPoseGraphMsg 1 values_of_1 [OtherFactor; between 1 0 1 1 1] [1].

(** The same round with robot 1 sending a value for a symbol of robot 0. *)
Definition clashing_answer_of_1 : PoseGraphMsg :=
  mkPoseGraphMsg 1 (<[symbol_of 0 0 := 5%Z]> values_of_1) [between 1 0 1 1 1] [1].

(** Robot 0 holding a loop closure with robot 2 while its neighbours are 1,
    5 and 6: it answers a request over the robots 3, 0 and 2 and receives its
    own answer. *)
Definition stray_run : list Event :=
  [ev_inter_robot_loop_closure closure_0_2; ev_current_neighbors [1; 5; 6]].

Definition stray_declaration : PoseGraphManager :=
  final_state
    (stray_run ++ [ev_pose_graph (get_pose_graph_callback [3; 0; 2]
                                    (final_state stray_run robot0))])
    robot0.

(** Robot 0 storing loop closures of all three pairs of the robots 0, 1, 2. *)
Definition all_closures : PoseGraphManager :=
  final_state
    [ev_keyframe_odom (mkKeyframeOdom 0 0%Z);
     ev_keyframe_odom (mkKeyframeOdom 1 1%Z);
     ev_inter_robot_loop_closure closure_0_1;
     ev_inter_robot_loop_closure closure_0_2;
     ev_inter_robot_loop_closure closure_1_2]
    robot0.

(** Robot 0 storing only a loop closure between the robots 1 and 2. *)
Definition foreign_closure : PoseGraphManager :=
  final_state [ev_inter_robot_loop_closure closure_1_2] robot0.

(** A round started before any keyframe arrived, and one started after. *)
Definition waiting_without_estimates : PoseGraphManager :=
  final_state [ev_optimization_timer 0] robot0.

Definition waiting_with_estimates : PoseGraphManager :=
  final_state [ev_keyframe_odom (mkKeyframeOdom 0 0%Z); ev_optimization_timer 0] robot0.

(** The events of the collected round, and the state before the answers. *)
Definition round_events : list Event :=
  local_run ++ [ev_pose_graph own_answer; ev_pose_graph answer_of_1; ev_pose_graph answer_of_2].

Definition collecting : PoseGraphManager := final_state local_run robot0.

(** A round in which the discovery service lists robot 1 twice. *)
Definition doubled_run : list Event :=
  [ev_keyframe_odom (mkKeyframeOdom 0 0%Z);
   ev_inter_robot_loop_closure closure_0_1;
   ev_current_neighbors [1; 1]].

Definition doubled_neighbor : PoseGraphManager :=
  final_state
    (doubled_run ++ [ev_pose_graph (get_pose_graph_callback [1; 1; 0]
                                      (final_state doubled_run robot0));
                     ev_pose_graph answer_of_1])
    robot0.

(** Keyframes that arrive out of order. *)
Definition shuffled_keyframes : list KeyframeOdom :=
  [mkKeyframeOdom 4 0%Z; mkKeyframeOdom 1 1%Z; mkKeyframeOdom 7 2%Z].

End Fleet.

(** ** Notions the properties are stated with *)

Section Notions.
Context `{G : Gtsam} `{L : Labels} `{Opt : !GncOptimizer}.

(** The robots the search touches: self, and every id listed in the received
    connectivity declaration of a robot already touched. *)
Inductive reached (m : PoseGraphManager) : N -> Prop :=
  | reached_self : reached m (robot_id_ m)
  | reached_declared (r id : N) :
      reached m r -> id ∈ connectivity_at m r -> reached m id.

Definition is_visited (v : list bool) (id : N) : Prop := v !! N.to_nat id = Some true.

#[global] Instance is_visited_dec (v : list bool) (id : N) : Decision (is_visited v id).
Proof. unfold is_visited. apply _. Defined.

(** Number of slots of [visited] still false. *)
Fixpoint unvisited (v : list bool) : nat :=
  match v with
  | [] => 0
  | b :: rest => (if b then 0 else 1) + unvisited rest
  end.

(** The factors one pair contributes to the served edges. *)
Definition served_closures (m : PoseGraphManager) (p : N * N) : list Factor :=
  if N.min p.1 p.2 =? robot_id_ m
  then loop_closures_at m (N.min p.1 p.2, N.max p.1 p.2)
  else [].

(** A first-in-first-out keyframe stream: ids strictly increase. *)
Fixpoint increasing_from (prev : N) (events : list KeyframeOdom) : Prop :=
  match events with
  | [] => True
  | e :: rest => prev < kf_id e /\ increasing_from (kf_id e) rest
  end.

Definition increasing_ids (events : list KeyframeOdom) : Prop :=
  match events with
  | [] => True
  | e :: rest => increasing_from (kf_id e) rest
  end.

(** The odometry edges of a stream that follows keyframe [prev]. *)
Fixpoint odometry_chain (m : PoseGraphManager) (prev : KeyframeOdom)
    (events : list KeyframeOdom) : list Factor :=
  match events with
  | [] => []
  | e :: rest =>
      BetweenFactor (local_symbol m (kf_id prev)) (local_symbol m (kf_id e))
        (pose_compose (kf_odom e) (pose_inverse (kf_odom prev))) default_noise_model_
      :: odometry_chain m e rest
  end.

(** A completion event ends a wait: a neighbours response, or a sub-graph
    after which every current neighbour has answered. *)
Definition completes (e : Event) (m : PoseGraphManager) : bool :=
  match e with
  | ev_current_neighbors _ => true
  | ev_pose_graph msg => check_received_pose_graphs (record_pose_graph msg m)
  | _ => false
  end.

(** A run without completion events. *)
Fixpoint quiet (events : list Event) (m : PoseGraphManager) : Prop :=
  match events with
  | [] => True
  | e :: rest =>
      completes e m = false
      /\ match step e m with
         | Done (m', _) => quiet rest m'
         | Failed _ => True
         end
  end.

Definition is_optimization_result (p : Publication) : bool :=
  match p with
  | pub_optimization_result _ _ _ => true
  | _ => false
  end.

(** The downcast to [BetweenFactor<Pose3>] succeeds. *)
Definition is_between (f : Factor) : bool :=
  match f with
  | BetweenFactor _ _ _ _ => true
  | _ => false
  end.

(** Both endpoints of a between-factor belong to robots the map sends to
    true. *)
Definition both_connected (connected : gmap N bool) (f : Factor) : bool :=
  match f with
  | BetweenFactor key1 key2 _ _ =>
      flag_at connected (robot_of key1) && flag_at connected (robot_of key2)
  | _ => false
  end.

(** The stored loop closures a pair of included robots contributes to the
    joint graph. *)
Definition connected_closures (m : PoseGraphManager) (connected : gmap N bool)
    (p : N * N) : list Factor :=
  if flag_at connected p.1 && flag_at connected p.2
  then loop_closures_at m (N.min p.1 p.2, N.max p.1 p.2)
  else [].

Definition received_edges (m : PoseGraphManager) (id : N) : list Factor :=
  match other_robots_graph_and_estimates_ m !! id with
  | Some graph_and_estimates => graph_and_estimates.1
  | None => []
  end.

(** The label macros give the robot id back. *)
Definition label_round_trip (id : N) : Prop := ROBOT_ID (to_uchar (ROBOT_LABEL id)) = id.

(** Loop-closure messages name robots whose labels round-trip. *)
Definition well_labelled (e : Event) : Prop :=
  match e with
  | ev_inter_robot_loop_closure msg =>
      label_round_trip (lc_robot0_id msg) /\ label_round_trip (lc_robot1_id msg)
  | _ => True
  end.

(** The states the executor can bring a freshly constructed manager to. *)
Inductive reachable (nb_robots robot_id : N) (max_waiting_param : Z)
  : PoseGraphManager -> Prop :=
  | reachable_new :
      reachable nb_robots robot_id max_waiting_param
        (PoseGraphManager_new nb_robots robot_id max_waiting_param)
  | reachable_step (m m' : PoseGraphManager) (e : Event) (out : list Publication) :
      reachable nb_robots robot_id max_waiting_param m ->
      well_labelled e ->
      step e m = Done (m', out) ->
      reachable nb_robots robot_id max_waiting_param m'.

(** What the [while] loop maintains between two iterations. *)
Record bfs_inv (m : PoseGraphManager) (st : bfs_state) : Prop := mkBfsInv {
  inv_length : length (visited st) = length (current_neighbors_ids_ m);
  inv_self : is_visited (visited st) (robot_id_ m);
  inv_reached : forall id, is_visited (visited st) id -> reached m id;
  inv_queue : forall id, id ∈ queue st -> is_visited (visited st) id;
  inv_closed : forall r id,
    is_visited (visited st) r -> r ∉ queue st ->
    id ∈ connectivity_at m r -> is_visited (visited st) id;
  inv_connected : forall id,
    is_robot_connected st !! id = Some true <-> is_visited (visited st) id;
}.

(** What every reachable state keeps about the labels of stored factors: the
    local graph is built from self's symbols, and a store entry holds
    factors between the two robots of its key. *)
Record labelled_inv (id : N) (m : PoseGraphManager) : Prop := mkLabelledInv {
  li_robot : robot_id_ m = id;
  li_latest :
    latest_local_symbol_ m = default_symbol
    \/ sym_label (latest_local_symbol_ m) = to_uchar (ROBOT_LABEL id);
  li_graph : forall f, f ∈ pose_graph_ m ->
    exists key1 key2 measured noise, f = BetweenFactor key1 key2 measured noise
      /\ sym_label key1 = to_uchar (ROBOT_LABEL id)
      /\ sym_label key2 = to_uchar (ROBOT_LABEL id);
  li_store : forall key f, f ∈ loop_closures_at m key ->
    exists key1 key2 measured noise, f = BetweenFactor key1 key2 measured noise
      /\ (robot_of key1 = key.1 \/ robot_of key1 = key.2)
      /\ (robot_of key2 = key.1 \/ robot_of key2 = key.2);
}.

(** The ways a loop tick that does not fail leaves the manager, with what it
    publishes. *)
Inductive loop_tick (now : Z) (m : PoseGraphManager)
  : PoseGraphManager -> list Publication -> Prop :=
  | tick_no_estimates :
      current_pose_estimates_ m = ∅ ->
      loop_tick now m m [pub_optimizer_state (optimizer_state_ m)]
  | tick_idle :
      current_pose_estimates_ m <> ∅ -> optimizer_state_ m = IDLE ->
      loop_tick now m m [pub_optimizer_state IDLE]
  | tick_waiting :
      current_pose_estimates_ m <> ∅ -> optimizer_state_ m = WAITING ->
      loop_tick now m (check_waiting_timeout now m)
        [pub_optimizer_state (optimizer_state_ (check_waiting_timeout now m))]
  | tick_no_neighbors :
      current_pose_estimates_ m <> ∅ -> optimizer_state_ m = POSEGRAPH_COLLECTION ->
      current_neighbors_ids_ m = [] ->
      loop_tick now m (with_optimizer_state m IDLE) [pub_optimizer_state IDLE]
  | tick_requests (sent : list Publication) :
      current_pose_estimates_ m <> ∅ -> optimizer_state_ m = POSEGRAPH_COLLECTION ->
      current_neighbors_ids_ m <> [] ->
      for_each (request_pose_graph m) (current_neighbors_ids_ m) [] = Done sent ->
      loop_tick now m (start_waiting now m) (sent ++ [pub_optimizer_state WAITING])
  | tick_optimization (result : Publication) :
      current_pose_estimates_ m <> ∅ -> optimizer_state_ m = OPTIMIZATION ->
      perform_optimization m = Done result ->
      loop_tick now m (with_optimizer_state m IDLE) [result; pub_optimizer_state IDLE].

(** The ways one event that does not fail changes the manager. *)
Inductive stepped (m : PoseGraphManager)
  : Event -> PoseGraphManager -> list Publication -> Prop :=
  | stepped_odometry msg m' :
      odometry_callback msg m = Done m' -> stepped m (ev_keyframe_odom msg) m' []
  | stepped_loop_closure msg :
      stepped m (ev_inter_robot_loop_closure msg)
        (inter_robot_loop_closure_callback msg m) []
  | stepped_neighbors ids :
      stepped m (ev_current_neighbors ids) (current_neighbors_callback ids m) []
  | stepped_request ids :
      stepped m (ev_get_pose_graph ids) m [pub_pose_graph (get_pose_graph_callback ids m)]
  | stepped_answer msg :
      stepped m (ev_pose_graph msg) (pose_graph_callback msg m) []
  | stepped_trigger now :
      optimizer_state_ m = IDLE ->
      stepped m (ev_optimization_timer now)
        (start_waiting now (reinitialize_received_pose_graphs m)) [pub_get_current_neighbors]
  | stepped_trigger_busy now :
      optimizer_state_ m <> IDLE -> stepped m (ev_optimization_timer now) m []
  | stepped_loop now m' out :
      loop_tick now m m' out -> stepped m (ev_optimization_loop_timer now) m' out.

(** The values received from a robot, empty when there is no entry. *)
Definition received_values (m : PoseGraphManager) (id : N) : Values :=
  match other_robots_graph_and_estimates_ m !! id with
  | Some graph_and_estimates => graph_and_estimates.2
  | None => ∅
  end.

(** Nothing the manager has stored is lost between two states: the local
    graph and every store entry are extended at the end, the estimates keep
    their entries, and the configuration is the same. *)
Definition grows (m m' : PoseGraphManager) : Prop :=
  robot_id_ m' = robot_id_ m
  /\ nb_robots_ m' = nb_robots_ m
  /\ max_waiting_time_sec_ m' = max_waiting_time_sec_ m
  /\ pose_graph_ m `prefix_of` pose_graph_ m'
  /\ current_pose_estimates_ m ⊆ current_pose_estimates_ m'
  /\ forall key, loop_closures_at m key `prefix_of` loop_closures_at m' key.

(** What the local graph looks like between two events. *)
Definition chain_inv (m : PoseGraphManager) : Prop :=
  (latest_local_symbol_ m = default_symbol
   \/ exists i, latest_local_symbol_ m = local_symbol m i
        /\ is_Some (current_pose_estimates_ m !! local_symbol m i))
  /\ forall f, f ∈ pose_graph_ m ->
       exists i j measured,
         f = BetweenFactor (local_symbol m i) (local_symbol m j) measured default_noise_model_
         /\ i <> j
         /\ is_Some (current_pose_estimates_ m !! local_symbol m i)
         /\ is_Some (current_pose_estimates_ m !! local_symbol m j).

(** The edge count of the local graph. *)
Definition count_inv (m : PoseGraphManager) : Prop :=
  (latest_local_symbol_ m = default_symbol /\ pose_graph_ m = []
   /\ current_pose_estimates_ m = ∅)
  \/ (latest_local_symbol_ m <> default_symbol
      /\ (length (pose_graph_ m) + 1 = size (current_pose_estimates_ m))%nat).

(** What the store entries hold. *)
Definition store_inv (m : PoseGraphManager) : Prop :=
  forall key f, f ∈ loop_closures_at m key ->
    key.1 <= key.2
    /\ exists key1 key2 measured,
         f = BetweenFactor key1 key2 measured default_noise_model_
         /\ sym_chr key1 = to_uchar GRAPH_LABEL /\ sym_chr key2 = to_uchar GRAPH_LABEL
         /\ ((robot_of key1 = key.1 /\ robot_of key2 = key.2)
             \/ (robot_of key1 = key.2 /\ robot_of key2 = key.1)).

(** What the exchange data keep between two events. *)
Definition exchange_inv (m : PoseGraphManager) : Prop :=
  (forall id, id < nb_robots_ m -> flag_at (received_pose_graphs_ m) id = true ->
     is_Some (other_robots_graph_and_estimates_ m !! id)
     /\ is_Some (received_pose_graphs_connectivity_ m !! id))
  /\ (optimizer_state_ m = OPTIMIZATION -> check_received_pose_graphs m = true)
  /\ (is_waiting_ m = true <-> optimizer_state_ m = WAITING).

(** The request the loop tick sends to one neighbour. *)
Definition request_to (m : PoseGraphManager) (id : N) : Publication :=
  pub_get_pose_graph id (current_neighbors_ids_ m ++ [robot_id_ m]).

(** The message [perform_optimization] publishes for a joint graph and joint
    estimates. *)
Definition result_message (m : PoseGraphManager) (joint : list Factor * Values) : Publication :=
  let graph :=
    joint.1 ++ [PriorFactor (local_symbol m 0) pose_identity default_noise_model_] in
  pub_optimization_result true graph (gnc_optimize graph joint.2).

(** The factor a loop-closure message stands for. *)
Definition closure_factor (msg : InterRobotLoopClosure) : Factor :=
  BetweenFactor
    (mkSymbol (to_uchar GRAPH_LABEL) (to_uchar (ROBOT_LABEL (lc_robot0_id msg)))
       (lc_robot0_image_id msg))
    (mkSymbol (to_uchar GRAPH_LABEL) (to_uchar (ROBOT_LABEL (lc_robot1_id msg)))
       (lc_robot1_image_id msg))
    (lc_transform msg) default_noise_model_.

End Notions.

(** * Properties *)

(** Exposes the [match] behind the monadic notation. *)
Ltac outcome_cases := unfold mbind, outcome_bind, mret, outcome_ret in *.

Lemma failed_not_done {A : Type} (e : failure) (a : A) : Failed e <> Done a.
Proof. discriminate. Qed.

(** Closes an equation between closed terms by running both sides. *)
Ltac evaluate := vm_compute; reflexivity.

Section BfsFacts.
Context `{G : Gtsam} `{L : Labels}.
Implicit Types (m : PoseGraphManager) (st : bfs_state) (id : N).

Lemma unvisited_insert (v : list bool) (i : nat) :
  v !! i = Some false -> (unvisited (<[i := true]> v) + 1 = unvisited v)%nat.
Proof.
  revert i. induction v as [|b v IH]; intros [|i] Hi; simplify_eq/=; try lia.
  specialize (IH _ Hi). lia.
Qed.

Lemma is_visited_insert (v : list bool) (x id : N) :
  (N.to_nat id < length v)%nat ->
  is_visited (<[N.to_nat id := true]> v) x <-> is_visited v x \/ x = id.
Proof.
  intros Hlt. unfold is_visited.
  destruct (decide (x = id)) as [-> |Hne].
  - rewrite list_lookup_insert_eq by done. naive_solver.
  - rewrite list_lookup_insert_ne by (intros E; apply N2Nat.inj in E; done).
    naive_solver.
Qed.

Lemma lookup_true_insert (c : gmap N bool) (x id : N) :
  <[id := true]> c !! x = Some true <-> c !! x = Some true \/ x = id.
Proof.
  destruct (decide (x = id)) as [-> |Hne].
  - rewrite lookup_insert_eq. naive_solver.
  - rewrite lookup_insert_ne by done. naive_solver.
Qed.

(** One iteration of the inner loop that stays inside the array. *)
Lemma visit_done id st st' :
  visit id st = Done st' ->
  length (visited st') = length (visited st)
  /\ (forall x, is_visited (visited st') x <-> is_visited (visited st) x \/ x = id)
  /\ (forall x, x ∈ queue st' <-> x ∈ queue st \/ (x = id /\ ~ is_visited (visited st) x))
  /\ (forall x, is_robot_connected st' !! x = Some true
                <-> is_robot_connected st !! x = Some true \/ x = id)
  /\ (unvisited (visited st') + length (queue st')
      = unvisited (visited st) + length (queue st))%nat.
Proof.
  unfold visit. destruct (visited st !! N.to_nat id) as [[]|] eqn:Hv; intros ?; simplify_eq/=.
  - repeat split; try (apply lookup_true_insert); naive_solver.
  - pose proof (lookup_lt_Some _ _ _ Hv) as Hlt.
    split; [by rewrite length_insert|].
    split; [intros x; by apply is_visited_insert|].
    split.
    { intros x. rewrite elem_of_app, list_elem_of_singleton.
      split; [|naive_solver].
      intros [?| ->]; [by left|right]. split; [done|].
      unfold is_visited. rewrite Hv. congruence. }
    split; [intros x; apply lookup_true_insert|].
    rewrite length_app. simpl. pose proof (unvisited_insert _ _ Hv). lia.
Qed.

Lemma visit_failed id st e :
  visit id st = Failed e ->
  e = OutOfBounds id /\ (length (visited st) <= N.to_nat id)%nat.
Proof.
  unfold visit. destruct (visited st !! N.to_nat id) as [[]|] eqn:Hv; intros ?; simplify_eq.
  split; [done|]. by apply lookup_ge_None.
Qed.

(** The whole inner loop over the declaration [ids] of the current robot. *)
Lemma for_each_visit_done ids st st' :
  for_each visit ids st = Done st' ->
  length (visited st') = length (visited st)
  /\ (forall x, is_visited (visited st') x <-> is_visited (visited st) x \/ x ∈ ids)
  /\ (forall x, x ∈ queue st' <-> x ∈ queue st \/ (x ∈ ids /\ ~ is_visited (visited st) x))
  /\ (forall x, is_robot_connected st' !! x = Some true
                <-> is_robot_connected st !! x = Some true \/ x ∈ ids)
  /\ (unvisited (visited st') + length (queue st')
      = unvisited (visited st) + length (queue st))%nat.
Proof.
  revert st. induction ids as [|id ids IH]; intros st Hrun; simpl in Hrun.
  - simplify_eq. repeat split; try naive_solver; set_solver.
  - destruct (visit id st) as [st1|] eqn:Hvisit; simpl in Hrun; [|done].
    apply visit_done in Hvisit as (Hlen1 & Hvis1 & Hq1 & Hc1 & Hm1).
    apply IH in Hrun as (Hlen & Hvis & Hq & Hc & Hm).
    split; [congruence|]. split; [|split; [|split; [|lia]]].
    + intros x. rewrite Hvis, Hvis1, elem_of_cons. tauto.
    + intros x. rewrite Hq, Hq1, Hvis1, elem_of_cons.
      destruct (decide (x = id)); naive_solver.
    + intros x. rewrite Hc, Hc1, elem_of_cons. tauto.
Qed.

Lemma for_each_visit_failed ids st e :
  for_each visit ids st = Failed e ->
  exists id, e = OutOfBounds id /\ id ∈ ids /\ (length (visited st) <= N.to_nat id)%nat.
Proof.
  revert st. induction ids as [|id ids IH]; intros st Hrun; simpl in Hrun; [done|].
  destruct (visit id st) as [st1|e1] eqn:Hvisit; simpl in Hrun.
  - apply visit_done in Hvisit as (Hlen1 & _).
    apply IH in Hrun as (x & -> & Hin & Hge).
    exists x. rewrite elem_of_cons. split; [done|]. split; [by right|lia].
  - simplify_eq. apply visit_failed in Hvisit as [-> Hge].
    exists id. rewrite elem_of_cons. auto.
Qed.


Lemma bfs_inv_iteration m st current_id rest st' :
  bfs_inv m st ->
  queue st = current_id :: rest ->
  for_each visit (connectivity_at m current_id)
    (mkBfs (is_robot_connected st) (visited st) rest) = Done st' ->
  bfs_inv m st'.
Proof.
  intros [Hlen Hself Hreach Hqueue Hclosed Hconn] Hq Hrun.
  apply for_each_visit_done in Hrun as (Hlen' & Hvis & Hq' & Hc & _); simpl in *.
  assert (is_visited (visited st) current_id) as Hcur.
  { apply Hqueue. rewrite Hq. left. }
  split.
  - congruence.
  - apply Hvis. by left.
  - intros id [?|?]%Hvis; [by apply Hreach|].
    eapply reached_declared; [apply Hreach, Hcur|done].
  - intros id [?|[? _]]%Hq'; apply Hvis; [left|by right].
    apply Hqueue. rewrite Hq. by right.
  - intros r id [Hr|Hr]%Hvis Hnotin Hdecl; apply Hvis.
    + destruct (decide (r = current_id)) as [-> |Hne]; [by right|].
      left. apply (Hclosed r); [done| |done].
      rewrite Hq, elem_of_cons. intros [?|?]; [done|]. apply Hnotin, Hq'. by left.
    + destruct (decide (is_visited (visited st) r)) as [Hold|Hnew].
      * destruct (decide (r = current_id)) as [-> |Hne]; [by right|].
        left. apply (Hclosed r); [done| |done].
        rewrite Hq, elem_of_cons. intros [?|?]; [done|]. apply Hnotin, Hq'. by left.
      * exfalso. apply Hnotin, Hq'. by right.
  - intros id. rewrite Hc, Hvis, Hconn. done.
Qed.

(** The loop, given fuel beyond the number of pushes still possible, ends
    with an empty queue or at an access outside [visited]. *)
Lemma bfs_loop_spec m fuel st :
  bfs_inv m st ->
  (unvisited (visited st) + length (queue st) < fuel)%nat ->
  match bfs_loop m fuel st with
  | Done st' => bfs_inv m st' /\ queue st' = []
  | Failed (OutOfBounds id) =>
      reached m id /\ (length (current_neighbors_ids_ m) <= N.to_nat id)%nat
  | Failed _ => False
  end.
Proof.
  revert st. induction fuel as [|fuel IH]; intros st Hinv Hfuel; [lia|].
  simpl. destruct (queue st) as [|current_id rest] eqn:Hq; [done|].
  destruct (for_each visit _ _) as [st'|e] eqn:Hrun; simpl.
  - apply IH; [by eapply bfs_inv_iteration|].
    apply for_each_visit_done in Hrun as (_ & _ & _ & _ & Hm). simpl in *. lia.
  - apply for_each_visit_failed in Hrun as (id & -> & Hin & Hge). simpl in *.
    split; [|by rewrite <- (inv_length _ _ Hinv)].
    eapply reached_declared; [|done].
    apply (inv_reached _ _ Hinv), (inv_queue _ _ Hinv). rewrite Hq. left.
Qed.

Lemma bfs_loop_fuel_mono m fuel fuel' st r :
  bfs_loop m fuel st = r -> r <> Failed OutOfFuel -> (fuel <= fuel')%nat ->
  bfs_loop m fuel' st = r.
Proof.
  revert fuel' st. induction fuel as [|fuel IH]; intros [|fuel'] st Hr Hne Hle;
    simpl in *; try lia; try congruence.
  destruct (queue st); [done|].
  destruct (for_each visit _ _); simpl in *; [|done].
  apply IH; [done|done|lia].
Qed.

Lemma unvisited_replicate (n : nat) : unvisited (replicate n false) = n.
Proof. induction n; simpl; lia. Qed.

Lemma neighbors_marked_false (ids : list N) (c : gmap N bool) (x : N) :
  fold_left (fun acc id => map_insert_new id false acc) ids c !! x = Some true
  <-> c !! x = Some true.
Proof.
  revert c. induction ids as [|id ids IH]; intros c; simpl; [done|].
  rewrite IH. unfold map_insert_new.
  destruct (c !! id) eqn:Hid; [done|].
  destruct (decide (x = id)) as [-> |Hne].
  - rewrite lookup_insert_eq, Hid. naive_solver.
  - by rewrite lookup_insert_ne.
Qed.

Lemma bfs_init_done m st :
  bfs_init m = Done st ->
  bfs_inv m st
  /\ (unvisited (visited st) + length (queue st) < S (length (current_neighbors_ids_ m)))%nat.
Proof.
  unfold bfs_init.
  destruct (replicate _ false !! N.to_nat (robot_id_ m)) as [b|] eqn:Hself; [|done].
  intros ?; simplify_eq/=.
  pose proof (lookup_lt_Some _ _ _ Hself) as Hlt.
  apply lookup_replicate in Hself as [-> Hlt'].
  assert (forall x, is_visited (<[N.to_nat (robot_id_ m) := true]>
                      (replicate (length (current_neighbors_ids_ m)) false)) x
                    <-> x = robot_id_ m) as Hvis.
  { intros x. rewrite is_visited_insert by done. unfold is_visited.
    split; [|by right]. intros [Hx|?]; [|done].
    apply lookup_replicate in Hx as [? _]. done. }
  split.
  - split; simpl.
    + by rewrite length_insert, length_replicate.
    + by apply Hvis.
    + intros id ->%Hvis. constructor.
    + intros id ->%list_elem_of_singleton. by apply Hvis.
    + intros r id ->%Hvis Hnotin. exfalso. apply Hnotin. left.
    + intros id. rewrite neighbors_marked_false, Hvis. unfold map_insert_new.
      rewrite lookup_empty. destruct (decide (id = robot_id_ m)) as [-> |Hne].
      * by rewrite lookup_insert_eq.
      * rewrite lookup_insert_ne, lookup_empty by done. naive_solver.
  - simpl. rewrite length_replicate in Hlt.
    pose proof (unvisited_insert (replicate (length (current_neighbors_ids_ m)) false)
                  (N.to_nat (robot_id_ m))) as Hu.
    rewrite lookup_replicate_2, unvisited_replicate in Hu by done.
    specialize (Hu eq_refl). lia.
Qed.

Lemma bfs_init_failed m e :
  bfs_init m = Failed e ->
  e = OutOfBounds (robot_id_ m)
  /\ (length (current_neighbors_ids_ m) <= N.to_nat (robot_id_ m))%nat.
Proof.
  unfold bfs_init.
  destruct (replicate _ false !! N.to_nat (robot_id_ m)) as [b|] eqn:Hself; [done|].
  intros ?; simplify_eq. split; [done|].
  apply lookup_ge_None in Hself. by rewrite length_replicate in Hself.
Qed.

(** A finished search has visited exactly the robots it can reach. *)
Lemma bfs_inv_complete m st id :
  bfs_inv m st -> queue st = [] -> reached m id -> is_visited (visited st) id.
Proof.
  intros Hinv Hq. induction 1 as [|r id _ IH Hdecl].
  - apply (inv_self _ _ Hinv).
  - apply (inv_closed _ _ Hinv r); [done| |done]. rewrite Hq. apply not_elem_of_nil.
Qed.

(** The resolver, in one statement: it returns the map that is true exactly
    on the reached robots, all of which index [visited] within its bounds,
    or it stops at a reached robot whose id is outside [visited]. *)
Lemma connected_robot_pose_graph_spec m :
  match connected_robot_pose_graph m with
  | Done connected =>
      (forall id, reached m id -> (N.to_nat id < length (current_neighbors_ids_ m))%nat)
      /\ (forall id, connected !! id = Some true <-> reached m id)
  | Failed (OutOfBounds id) =>
      reached m id /\ (length (current_neighbors_ids_ m) <= N.to_nat id)%nat
  | Failed _ => False
  end.
Proof.
  unfold connected_robot_pose_graph, connected_robot_pose_graph_fuel.
  unfold mbind, outcome_bind, mret, outcome_ret.
  destruct (bfs_init m) as [st|e] eqn:Hinit.
  - apply bfs_init_done in Hinit as [Hinv Hfuel].
    pose proof (bfs_loop_spec m _ st Hinv Hfuel) as Hloop.
    destruct (bfs_loop m _ st) as [st'|e]; [|done].
    destruct Hloop as [Hinv' Hq]. split.
    + intros id Hid. rewrite <- (inv_length _ _ Hinv').
      apply (lookup_lt_Some _ _ true). by apply (bfs_inv_complete m).
    + intros id. rewrite (inv_connected _ _ Hinv'). split.
      * apply (inv_reached _ _ Hinv').
      * by apply bfs_inv_complete.
  - apply bfs_init_failed in Hinit as [-> Hge]. split; [constructor|done].
Qed.


(** The fuel of the resolver is enough: more fuel gives the same result. *)
Lemma connected_robot_pose_graph_fuel_enough m fuel :
  (S (length (current_neighbors_ids_ m)) <= fuel)%nat ->
  connected_robot_pose_graph_fuel fuel m = connected_robot_pose_graph m.
Proof.
  intros Hle. pose proof (connected_robot_pose_graph_spec m) as Hspec.
  unfold connected_robot_pose_graph, connected_robot_pose_graph_fuel in *.
  unfold mbind, outcome_bind, mret, outcome_ret in *.
  destruct (bfs_init m) as [st|e]; [|done].
  destruct (bfs_loop m (S _) st) as [st'|e] eqn:Hloop.
  - by rewrite (bfs_loop_fuel_mono _ _ fuel _ _ Hloop).
  - rewrite (bfs_loop_fuel_mono _ _ fuel _ _ Hloop); [done| |done].
    intros ?; by simplify_eq.
Qed.

(** C1. The search indexes [visited], an array of as many slots as there are
    current neighbours, by robot id.  It runs into an access outside the
    array exactly when some robot it touches (self, or an id declared by a
    robot already touched) has an id at or above the number of neighbours,
    and the failing access is at such an id; it returns a map exactly when
    every touched id is below the number of neighbours. *)
Theorem visited_out_of_bounds_iff m :
  let n := N.of_nat (length (current_neighbors_ids_ m)) in
  ((exists id, reached m id /\ n <= id)
   <-> exists id, connected_robot_pose_graph m = Failed (OutOfBounds id)
                  /\ reached m id /\ n <= id)
  /\ ((forall id, reached m id -> id < n)
      <-> exists connected, connected_robot_pose_graph m = Done connected).
Proof.
  intros n. pose proof (connected_robot_pose_graph_spec m) as Hspec.
  destruct (connected_robot_pose_graph m) as [connected|e].
  - destruct Hspec as [Hbound _]. split; split.
    + intros (id & Hid & Hge). apply Hbound in Hid. lia.
    + intros (id & ? & _). done.
    + eauto.
    + intros _ id Hid. apply Hbound in Hid. lia.
  - destruct e as [id| | |]; try done. destruct Hspec as [Hid Hge]. split; split.
    + intros _. exists id. repeat split; [done|lia].
    + intros (id' & _ & ? & ?). eauto.
    + intros Hall. apply Hall in Hid. lia.
    + intros [? ?]. done.
Qed.

(** C2, as the code has it.  Whenever the resolver returns, its map sends
    self to true, and it sends an id to true exactly when the search reached
    it: the id is self or is listed in the connectivity declaration of a
    reached robot.  Membership in the current neighbours plays no part. *)
Theorem connected_map_is_reached_set m connected :
  connected_robot_pose_graph m = Done connected ->
  flag_at connected (robot_id_ m) = true
  /\ (forall id, flag_at connected id = true <-> reached m id).
Proof.
  intros Hrun. pose proof (connected_robot_pose_graph_spec m) as Hspec.
  rewrite Hrun in Hspec. destruct Hspec as [_ Hiff].
  assert (forall id, flag_at connected id = true <-> reached m id) as Hflag.
  { intros id. rewrite <- Hiff. unfold flag_at.
    destruct (connected !! id) as [[]|]; naive_solver. }
  split; [|done]. apply Hflag. constructor.
Qed.

End BfsFacts.

Section ServeFacts.
Context `{G : Gtsam} `{L : Labels}.
Implicit Types (m : PoseGraphManager) (ids : list N).

Lemma for_pairs_index_pairs {A S : Type} (body : A -> A -> S -> S) (l : list A) (st : S) :
  for_pairs body l st = fold_left (fun acc p => body p.1 p.2 acc) (index_pairs l) st.
Proof.
  revert st. induction l as [|x rest IH]; intros st; simpl; [done|].
  rewrite fold_left_app, IH.
  replace (fold_left (fun acc p => body p.1 p.2 acc) (map (pair x) rest) st)
    with (fold_left (fun acc y => body x y acc) rest st); [done|].
  clear IH. revert st. induction rest as [|y rest' IHr]; intros st; simpl; [done|].
  apply IHr.
Qed.

Lemma index_pairs_elem {A : Type} (l : list A) (a b : A) :
  (a, b) ∈ index_pairs l -> a ∈ l /\ b ∈ l.
Proof.
  induction l as [|x rest IH]; simpl; [by intros ?%elem_of_nil|].
  rewrite elem_of_app, list_elem_of_fmap. intros [(y & ? & Hy)|Hin].
  - simplify_eq. split; [left|by right].
  - apply IH in Hin as [? ?]. split; by right.
Qed.

Lemma index_pairs_distinct {A : Type} (l : list A) (a b : A) :
  NoDup l -> (a, b) ∈ index_pairs l -> a <> b.
Proof.
  induction 1 as [|x rest Hx Hnd IH]; simpl; [by intros ?%elem_of_nil|].
  rewrite elem_of_app, list_elem_of_fmap. intros [(y & ? & Hy)|Hin].
  - simplify_eq. by intros ->.
  - by apply IH.
Qed.

Lemma index_pairs_complete {A : Type} (l : list A) (a b : A) :
  a ∈ l -> b ∈ l -> a <> b -> (a, b) ∈ index_pairs l \/ (b, a) ∈ index_pairs l.
Proof.
  induction l as [|x rest IH]; simpl; [by intros ?%elem_of_nil|].
  rewrite !elem_of_cons, !elem_of_app, !list_elem_of_fmap.
  intros [-> |Ha] [-> |Hb] Hne; [done| | |].
  - left. left. eauto.
  - right. left. eauto.
  - destruct (IH Ha Hb Hne); auto.
Qed.

Lemma set_insert_elem (x y : N) (s : list N) : x ∈ set_insert y s <-> x = y \/ x ∈ s.
Proof.
  induction s as [|z s IH]; simpl.
  - rewrite list_elem_of_singleton. set_solver.
  - destruct (N.ltb_spec y z); [set_solver|].
    destruct (N.eqb_spec y z) as [-> |?]; [set_solver|].
    rewrite !elem_of_cons, IH. tauto.
Qed.

Lemma serve_pairs_spec m (ps : list (N * N)) (acc : list Factor * list N) :
  let r := fold_left (fun acc p => serve_pair m p.1 p.2 acc) ps acc in
  r.1 = acc.1 ++ flat_map (served_closures m) ps
  /\ (forall x, x ∈ r.2 <->
        x ∈ acc.2 \/ exists p, p ∈ ps
          /\ loop_closures_at m (N.min p.1 p.2, N.max p.1 p.2) <> []
          /\ x = N.max p.1 p.2).
Proof.
  revert acc. induction ps as [|p ps IH]; intros acc; simpl.
  - rewrite app_nil_r. split; [done|]. intros x. split; [auto|].
    intros [?|(p & ?%elem_of_nil & _)]; done.
  - destruct (IH (serve_pair m p.1 p.2 acc)) as [Hg Hc]. split.
    + rewrite Hg. unfold serve_pair, served_closures.
      destruct (loop_closures_at m _) as [|f fs] eqn:Hstore; simpl.
      * destruct (_ =? _); by rewrite ?app_nil_r.
      * destruct (_ =? _); simpl; [by rewrite <- app_assoc|done].
    + intros x. rewrite Hc. unfold serve_pair.
      destruct (loop_closures_at m (N.min p.1 p.2, N.max p.1 p.2)) as [|f fs] eqn:Hstore;
        simpl.
      * split; intros [?|(q & Hq & Hne & ->)]; auto.
        -- right. exists q. rewrite elem_of_cons. auto.
        -- apply elem_of_cons in Hq as [-> |Hq]; [congruence|]. right. eauto.
      * rewrite set_insert_elem. split.
        -- intros [[-> |?]|(q & Hq & Hne & ->)]; auto.
           ++ right. exists p. rewrite elem_of_cons, Hstore. auto.
           ++ right. exists q. rewrite elem_of_cons. auto.
        -- intros [?|(q & Hq & Hne & ->)]; auto.
           apply elem_of_cons in Hq as [-> |Hq]; [auto|]. right. eauto.
Qed.

Lemma get_pose_graph_callback_spec ids m :
  pg_edges (get_pose_graph_callback ids m)
  = pose_graph_ m ++ flat_map (served_closures m) (index_pairs ids)
  /\ (forall x, x ∈ pg_connected_robots (get_pose_graph_callback ids m) <->
        exists p, p ∈ index_pairs ids
          /\ loop_closures_at m (N.min p.1 p.2, N.max p.1 p.2) <> []
          /\ x = N.max p.1 p.2).
Proof.
  unfold get_pose_graph_callback. rewrite for_pairs_index_pairs.
  destruct (serve_pairs_spec m (index_pairs ids) (pose_graph_ m, [])) as [Hg Hc].
  destruct (fold_left _ _ _) as [graph connected]; simpl in *.
  split; [done|]. intros x. rewrite Hc. split; [|auto].
  intros [?%elem_of_nil|?]; done.
Qed.

(** C5. The edges served for a request with id set [ids] are the local
    graph followed by the stored loop closures of the pairs of [ids] whose
    smaller id is self, and nothing else: a factor is served exactly when it
    is in the local graph or in the store entry of such a pair. *)
Theorem served_edges_are_own_loop_closures ids m :
  NoDup ids ->
  pg_edges (get_pose_graph_callback ids m)
  = pose_graph_ m ++ flat_map (served_closures m) (index_pairs ids)
  /\ (forall f, f ∈ pg_edges (get_pose_graph_callback ids m) <->
        f ∈ pose_graph_ m
        \/ exists i j, i ∈ ids /\ j ∈ ids /\ i <> j
             /\ N.min i j = robot_id_ m
             /\ f ∈ loop_closures_at m (N.min i j, N.max i j)).
Proof.
  intros Hnd. destruct (get_pose_graph_callback_spec ids m) as [Hedges _].
  split; [done|]. intros f. rewrite Hedges, elem_of_app, (list_elem_of_In (flat_map _ _)), in_flat_map.
  split; (intros [?|Hex]; [by left|right]).
  - destruct Hex as ([i j] & Hin & Hf). apply list_elem_of_In in Hin, Hf.
    unfold served_closures in Hf. simpl in Hf.
    destruct (N.eqb_spec (N.min i j) (robot_id_ m)) as [Hmin|?];
      [|by apply elem_of_nil in Hf].
    exists i, j. pose proof (index_pairs_elem _ _ _ Hin) as [? ?].
    pose proof (index_pairs_distinct _ _ _ Hnd Hin). done.
  - destruct Hex as (i & j & Hi & Hj & Hne & Hmin & Hf).
    destruct (index_pairs_complete _ _ _ Hi Hj Hne) as [Hin|Hin].
    + exists (i, j). rewrite <- !list_elem_of_In. split; [done|].
      unfold served_closures. simpl. by rewrite (proj2 (N.eqb_eq _ _) Hmin).
    + exists (j, i). rewrite <- !list_elem_of_In. split; [done|].
      unfold served_closures. simpl. rewrite N.min_comm, N.max_comm.
      by rewrite (proj2 (N.eqb_eq _ _) Hmin).
Qed.

(** C9, as the code has it.  An id is published in [connected_robots]
    exactly when it is the larger id of some pair of the request whose store
    entry is non-empty; self need not be a member of that pair. *)
Theorem connected_robots_are_larger_ids ids m :
  forall x, x ∈ pg_connected_robots (get_pose_graph_callback ids m) <->
    exists i j, (i, j) ∈ index_pairs ids
      /\ loop_closures_at m (N.min i j, N.max i j) <> []
      /\ x = N.max i j.
Proof.
  intros x. destruct (get_pose_graph_callback_spec ids m) as [_ Hc]. rewrite Hc.
  split.
  - intros ([i j] & ? & ? & ?). by exists i, j.
  - intros (i & j & ? & ? & ?). by exists (i, j).
Qed.

End ServeFacts.

Section OdometryFacts.
Context `{G : Gtsam} `{L : Labels}.
Implicit Types (m : PoseGraphManager) (events : list KeyframeOdom).

Lemma local_symbol_index m i j : local_symbol m i = local_symbol m j -> i = j.
Proof. unfold local_symbol. by intros [=]. Qed.

Lemma local_symbol_set m : to_uchar GRAPH_LABEL <> 0 -> forall i, local_symbol m i <> default_symbol.
Proof. intros Hg i [=]. done. Qed.

Lemma odometry_chain_robot m m' prev events :
  robot_id_ m' = robot_id_ m -> odometry_chain m' prev events = odometry_chain m prev events.
Proof.
  intros Hid. revert prev. induction events as [|e rest IH]; intros prev; simpl; [done|].
  unfold local_symbol. by rewrite Hid, IH.
Qed.

Lemma odometry_callback_first m msg :
  current_pose_estimates_ m !! local_symbol m (kf_id msg) = None ->
  latest_local_symbol_ m = default_symbol ->
  odometry_callback msg m
  = Done (with_local_graph m (pose_graph_ m)
            (<[local_symbol m (kf_id msg) := kf_odom msg]> (current_pose_estimates_ m))
            (local_symbol m (kf_id msg)) (kf_odom msg)).
Proof.
  intros Hfresh Hlatest. unfold odometry_callback, values_insert. rewrite Hfresh.
  unfold mbind, outcome_bind, mret, outcome_ret. by case_decide.
Qed.

Lemma odometry_callback_next m msg :
  current_pose_estimates_ m !! local_symbol m (kf_id msg) = None ->
  latest_local_symbol_ m <> default_symbol ->
  odometry_callback msg m
  = Done (with_local_graph m
            (pose_graph_ m ++
               [BetweenFactor (latest_local_symbol_ m) (local_symbol m (kf_id msg))
                  (pose_compose (kf_odom msg) (pose_inverse (latest_local_pose_ m)))
                  default_noise_model_])
            (<[local_symbol m (kf_id msg) := kf_odom msg]> (current_pose_estimates_ m))
            (local_symbol m (kf_id msg)) (kf_odom msg)).
Proof.
  intros Hfresh Hlatest. unfold odometry_callback, values_insert. rewrite Hfresh.
  unfold mbind, outcome_bind, mret, outcome_ret. by case_decide.
Qed.

(** Ingesting a stream that continues after keyframe [prev]. *)
Lemma ingest_after m prev events :
  to_uchar GRAPH_LABEL <> 0 ->
  latest_local_symbol_ m = local_symbol m (kf_id prev) ->
  latest_local_pose_ m = kf_odom prev ->
  (forall key, is_Some (current_pose_estimates_ m !! key) ->
     exists i, key = local_symbol m i /\ i <= kf_id prev) ->
  increasing_from (kf_id prev) events ->
  exists m', for_each odometry_callback events m = Done m'
    /\ pose_graph_ m' = pose_graph_ m ++ odometry_chain m prev events
    /\ size (current_pose_estimates_ m') = (size (current_pose_estimates_ m) + length events)%nat.
Proof.
  intros Hg. revert m prev. induction events as [|e rest IH]; intros m prev Hsym Hpose Hkeys Hinc.
  - exists m. simpl. by rewrite app_nil_r, Nat.add_0_r.
  - destruct Hinc as [Hlt Hinc].
    destruct (current_pose_estimates_ m !! local_symbol m (kf_id e)) as [v|] eqn:Hfresh.
    { destruct (Hkeys (local_symbol m (kf_id e))) as (i & Hi & Hle); [by eexists|].
      apply local_symbol_index in Hi. lia. }
    cbn [for_each]. rewrite odometry_callback_next
      by (try done; rewrite Hsym; by apply local_symbol_set).
    cbn [mbind outcome_bind].
    set (m1 := with_local_graph m _ _ _ _).
    destruct (IH m1 e) as (m' & Hrun & Hgraph & Hsize); try done.
    { intros key. unfold m1; simpl. destruct (decide (key = local_symbol m (kf_id e))) as [-> |Hne].
      - intros _. exists (kf_id e). split; [done|lia].
      - rewrite lookup_insert_ne by done. intros (i & ? & ?)%Hkeys. exists i. split; [done|lia]. }
    exists m'. split; [done|]. rewrite Hgraph, Hsize. unfold m1; simpl.
    rewrite (odometry_chain_robot m m1) by done.
    rewrite map_size_insert_None by done. rewrite Hsym, Hpose, <- app_assoc. simpl.
    split; [done|lia].
Qed.

Lemma odometry_chain_lookup m prev events (k : nat) (a b : KeyframeOdom) :
  (prev :: events) !! k = Some a -> (prev :: events) !! S k = Some b ->
  odometry_chain m prev events !! k
  = Some (BetweenFactor (local_symbol m (kf_id a)) (local_symbol m (kf_id b))
            (pose_compose (kf_odom b) (pose_inverse (kf_odom a))) default_noise_model_).
Proof.
  revert prev k. induction events as [|e rest IH]; intros prev k Ha Hb; [done|].
  destruct k as [|k]; simpl in *; [by simplify_eq|]. by apply IH.
Qed.

Lemma odometry_chain_length m prev events :
  length (odometry_chain m prev events) = length events.
Proof. revert prev. induction events; intros prev; simpl; auto. Qed.

(** C6. From an empty local graph, a non-empty stream of keyframes with
    strictly increasing ids is ingested without error; afterwards the pose
    graph has one factor fewer than the estimates have entries, and its
    factor number [k] (counting from 1) links the symbols of keyframes
    [k - 1] and [k] with the measurement [pose_k * inverse pose_(k-1)]. *)
Theorem odometry_builds_a_chain m events :
  to_uchar GRAPH_LABEL <> 0 ->
  pose_graph_ m = [] ->
  current_pose_estimates_ m = ∅ ->
  latest_local_symbol_ m = default_symbol ->
  events <> [] ->
  increasing_ids events ->
  exists m', for_each odometry_callback events m = Done m'
    /\ size (current_pose_estimates_ m') = length events
    /\ length (pose_graph_ m') = (size (current_pose_estimates_ m') - 1)%nat
    /\ (forall (k : nat) (a b : KeyframeOdom),
          events !! k = Some a -> events !! S k = Some b ->
          pose_graph_ m' !! k
          = Some (BetweenFactor (local_symbol m (kf_id a)) (local_symbol m (kf_id b))
                    (pose_compose (kf_odom b) (pose_inverse (kf_odom a)))
                    default_noise_model_)).
Proof.
  intros Hg Hgraph Hest Hlatest Hne Hinc.
  destruct events as [|e0 rest]; [done|]. simpl in Hinc.
  cbn [for_each]. rewrite odometry_callback_first by (try done; by rewrite Hest).
  cbn [mbind outcome_bind]. rewrite Hest.
  set (m1 := with_local_graph m _ _ _ _).
  destruct (ingest_after m1 e0 rest) as (m' & Hrun & Hgraph' & Hsize); try done.
  { intros key. unfold m1; simpl. destruct (decide (key = local_symbol m (kf_id e0))) as [-> |Hne'].
    - intros _. exists (kf_id e0). split; [done|lia].
    - rewrite lookup_insert_ne, lookup_empty by done. by intros [? ?]. }
  exists m'. split; [done|]. unfold m1 in Hgraph', Hsize; simpl in Hgraph', Hsize.
  rewrite Hgraph in Hgraph'. simpl in Hgraph'.
  rewrite map_size_insert_None, map_size_empty in Hsize by apply lookup_empty.
  rewrite Hgraph', Hsize, odometry_chain_length.
  split; [done|]. split; [lia|]. intros k a b Ha Hb.
  rewrite (odometry_chain_robot m (with_local_graph m _ _ _ _)) by done.
  by apply odometry_chain_lookup.
Qed.

End OdometryFacts.

Section StateMachineFacts.
Context `{G : Gtsam} `{L : Labels} `{Opt : !GncOptimizer}.
Implicit Types (m : PoseGraphManager) (events : list Event).

(** C10. With no current neighbours the all-received test holds vacuously:
    any sub-graph message, from any robot, ends the wait and moves the
    optimizer to [OPTIMIZATION]. *)
Theorem pose_graph_without_neighbors_starts_optimization m msg :
  current_neighbors_ids_ m = [] ->
  check_received_pose_graphs (record_pose_graph msg m) = true
  /\ is_waiting_ (pose_graph_callback msg m) = false
  /\ optimizer_state_ (pose_graph_callback msg m) = OPTIMIZATION.
Proof.
  intros Hnone.
  assert (check_received_pose_graphs (record_pose_graph msg m) = true) as Hcheck.
  { unfold check_received_pose_graphs. simpl. by rewrite Hnone. }
  unfold pose_graph_callback. by rewrite Hcheck.
Qed.

Lemma optimization_loop_waiting now m :
  optimizer_state_ m = WAITING ->
  current_pose_estimates_ m <> ∅ ->
  optimization_loop_callback now m
  = Done (check_waiting_timeout now m,
          [pub_optimizer_state (optimizer_state_ (check_waiting_timeout now m))]).
Proof.
  intros Hstate Hest. unfold optimization_loop_callback, optimization_loop_body.
  outcome_cases. rewrite decide_False by done. by rewrite Hstate.
Qed.

(** Without a completion event the optimizer stays in [WAITING] or [IDLE],
    and nothing but monitoring and request messages is published. *)
Lemma quiet_step e m m' out :
  optimizer_state_ m = WAITING \/ optimizer_state_ m = IDLE ->
  completes e m = false ->
  step e m = Done (m', out) ->
  (optimizer_state_ m' = WAITING \/ optimizer_state_ m' = IDLE)
  /\ forall p, p ∈ out -> is_optimization_result p = false.
Proof.
  intros Hstate Hquiet Hstep. destruct e as [msg|msg|ids|ids|msg|now|now]; simpl in *.
  - unfold odometry_callback in Hstep.
    outcome_cases. destruct (values_insert _ _ _); simplify_eq.
    split; [done|]. by intros p ?%elem_of_nil.
  - simplify_eq. split; [|by intros p ?%elem_of_nil].
    unfold inter_robot_loop_closure_callback. by destruct (lc_success msg).
  - done.
  - simplify_eq. split; [done|]. by intros p ->%list_elem_of_singleton.
  - simplify_eq. split; [|by intros p ?%elem_of_nil].
    unfold pose_graph_callback. by rewrite Hquiet.
  - unfold optimization_callback in Hstep. case_decide; simplify_eq.
    + split; [by left|]. by intros p ->%list_elem_of_singleton.
    + split; [done|]. by intros p ?%elem_of_nil.
  - unfold optimization_loop_callback, optimization_loop_body in Hstep.
    outcome_cases. case_decide; simpl in Hstep.
    + simplify_eq. split; [done|]. by intros p ->%list_elem_of_singleton.
    + destruct Hstate as [Hs|Hs]; rewrite Hs in Hstep; simpl in Hstep; simplify_eq.
      * split; [|by intros p ->%list_elem_of_singleton].
        unfold check_waiting_timeout. case_decide; simpl; auto.
      * split; [auto|]. by intros p ->%list_elem_of_singleton.
Qed.

Lemma quiet_run events m :
  optimizer_state_ m = WAITING \/ optimizer_state_ m = IDLE ->
  quiet events m ->
  forall p, p ∈ (run events m).1 -> is_optimization_result p = false.
Proof.
  revert m. induction events as [|e rest IH]; intros m Hstate Hquiet p; simpl.
  - by intros ?%elem_of_nil.
  - destruct Hquiet as [Hc Hrest].
    destruct (step e m) as [[m' out]|err] eqn:Hstep; simpl; [|by intros ?%elem_of_nil].
    destruct (quiet_step _ _ _ _ Hstate Hc Hstep) as [Hstate' Hout].
    rewrite elem_of_app. intros [?|?]; [by apply Hout|]. by apply (IH m').
Qed.

(** C7, as the code has it.  The loop tick looks at the state only when the
    local estimates are non-empty.  Under that guard, a tick that finds the
    optimizer in [WAITING] with the deadline exceeded ends the wait, moves it
    to [IDLE] and publishes the state only; and whatever happens in a run
    without completion events, no optimization result is published. *)
Theorem waiting_times_out_with_estimates m now :
  optimizer_state_ m = WAITING ->
  current_pose_estimates_ m <> ∅ ->
  (now - start_waiting_time_ m > max_waiting_time_sec_ m)%Z ->
  (exists m', optimization_loop_callback now m = Done (m', [pub_optimizer_state IDLE])
     /\ optimizer_state_ m' = IDLE /\ is_waiting_ m' = false)
  /\ (forall events, quiet events m ->
        forall p, p ∈ (run events m).1 -> is_optimization_result p = false).
Proof.
  intros Hstate Hest Hlate. split.
  - rewrite optimization_loop_waiting by done.
    unfold check_waiting_timeout. rewrite decide_True by done. simpl. eauto.
  - intros events. apply quiet_run. by left.
Qed.

End StateMachineFacts.

Section AggregatorFacts.
Context `{G : Gtsam} `{L : Labels} `{Opt : !GncOptimizer}.
Implicit Types (m : PoseGraphManager) (connected : gmap N bool) (graph : list Factor).

Lemma add_loop_closures_spec m connected (l : list N) graph :
  for_pairs (add_loop_closures m connected) l graph
  = graph ++ flat_map (connected_closures m connected) (index_pairs l).
Proof.
  rewrite for_pairs_index_pairs. generalize (index_pairs l) as ps. intros ps.
  revert graph. induction ps as [|p ps IH]; intros graph; simpl; [by rewrite app_nil_r|].
  rewrite IH. unfold add_loop_closures, connected_closures.
  destruct (_ && _); simpl; [by rewrite <- app_assoc|done].
Qed.

Lemma add_received_factors_done connected (fs : list Factor) graph graph' :
  for_each (add_received_factor connected) fs graph = Done graph' ->
  graph' = graph ++ List.filter (both_connected connected) fs
  /\ forall f, f ∈ fs -> is_between f = true.
Proof.
  revert graph. induction fs as [|f fs IH]; intros graph Hrun; simpl in Hrun.
  - simplify_eq. rewrite app_nil_r. split; [done|]. by intros f ?%elem_of_nil.
  - outcome_cases. destruct f as [key1 key2 measured noise| |]; simpl in *; try done.
    destruct (_ && _); apply IH in Hrun as [-> Hall].
    + rewrite <- app_assoc. split; [done|]. intros f [-> |?]%elem_of_cons; auto.
    + split; [done|]. intros f [-> |?]%elem_of_cons; auto.
Qed.

Lemma add_neighbor_factors_done m connected (ids : list N) graph graph' :
  for_each (add_neighbor_factors m connected) ids graph = Done graph' ->
  graph' = graph ++ flat_map (fun id => List.filter (both_connected connected)
                                         (received_edges m id)) ids
  /\ forall id, id ∈ ids ->
       exists ge, other_robots_graph_and_estimates_ m !! id = Some ge
         /\ forall f, f ∈ ge.1 -> is_between f = true.
Proof.
  revert graph. induction ids as [|id ids IH]; intros graph Hrun; simpl in Hrun.
  - simplify_eq. rewrite app_nil_r. split; [done|]. by intros id ?%elem_of_nil.
  - outcome_cases. unfold add_neighbor_factors at 1 in Hrun.
    destruct (other_robots_graph_and_estimates_ m !! id) as [ge|] eqn:Hge; [|done].
    destruct (for_each (add_received_factor connected) _ _) as [graph1|] eqn:Hfs; [|done].
    apply add_received_factors_done in Hfs as [-> Hall].
    apply IH in Hrun as [-> Hrest]. cbn [flat_map].
    replace (received_edges m id) with ge.1 by (unfold received_edges; by rewrite Hge).
    rewrite <- app_assoc. split; [done|].
    intros id' [-> |?]%elem_of_cons; eauto.
Qed.

Lemma values_insert_all_done (src vs vs' : Values) :
  values_insert_all src vs = Done vs' ->
  vs' = vs ∪ src /\ forall key, is_Some (src !! key) -> vs !! key = None.
Proof.
  unfold values_insert_all. case_bool_decide as Hfresh; [|done].
  intros ?; simplify_eq. split; [done|]. intros key [v Hv]. by apply (Hfresh key v).
Qed.

Lemma values_insert_all_failed (src vs : Values) e :
  values_insert_all src vs = Failed e ->
  exists key, is_Some (src !! key) /\ is_Some (vs !! key).
Proof.
  unfold values_insert_all. case_bool_decide as Hfresh; [done|]. intros _.
  apply map_not_Forall in Hfresh; [|apply _].
  destruct Hfresh as (key & v & Hv & Hne). exists key. split; [by eexists|].
  by apply not_eq_None_Some.
Qed.

Lemma add_neighbor_estimates_done m connected (ids : list N) (vs vs' : Values) :
  for_each (add_neighbor_estimates m connected) ids vs = Done vs' ->
  vs ⊆ vs'
  /\ forall id, id ∈ ids -> flag_at connected id = true ->
       exists ge, other_robots_graph_and_estimates_ m !! id = Some ge
         /\ forall key, is_Some (ge.2 !! key) -> vs !! key = None.
Proof.
  revert vs. induction ids as [|id ids IH]; intros vs Hrun; simpl in Hrun.
  - simplify_eq. split; [done|]. by intros id ?%elem_of_nil.
  - outcome_cases. unfold add_neighbor_estimates at 1 in Hrun.
    destruct (flag_at connected id) eqn:Hflag.
    + destruct (other_robots_graph_and_estimates_ m !! id) as [ge|] eqn:Hge; [|done].
      destruct (values_insert_all _ _) as [vs1|] eqn:Hins; [|done].
      apply values_insert_all_done in Hins as [-> Hfresh].
      apply IH in Hrun as [Hsub Hrest].
      split; [by etrans; [apply map_union_subseteq_l|]|].
      intros id' [-> |Hin]%elem_of_cons Hc; [eauto|].
      destruct (Hrest id' Hin Hc) as (ge' & Hge' & Hfresh'). exists ge'. split; [done|].
      intros key Hkey. specialize (Hfresh' key Hkey).
      by apply lookup_union_None in Hfresh' as [? _].
    + apply IH in Hrun as [Hsub Hrest]. split; [done|].
      intros id' [-> |Hin]%elem_of_cons Hc; [congruence|]. by apply Hrest.
Qed.

(** What a finished aggregation returns. *)
Lemma aggregate_pose_graphs_done m graph (estimates : Values) :
  aggregate_pose_graphs m = Done (graph, estimates) ->
  exists connected, connected_robot_pose_graph m = Done connected
    /\ graph = pose_graph_ m
         ++ flat_map (connected_closures m connected)
              (index_pairs (current_neighbors_ids_ m ++ [robot_id_ m]))
         ++ flat_map (fun id => List.filter (both_connected connected) (received_edges m id))
              (current_neighbors_ids_ m)
    /\ current_pose_estimates_ m ⊆ estimates
    /\ (forall id, id ∈ current_neighbors_ids_ m ->
          exists ge, other_robots_graph_and_estimates_ m !! id = Some ge
            /\ (forall f, f ∈ ge.1 -> is_between f = true)
            /\ (flag_at connected id = true ->
                forall key, is_Some (ge.2 !! key) -> current_pose_estimates_ m !! key = None)).
Proof.
  unfold aggregate_pose_graphs. outcome_cases.
  destruct (connected_robot_pose_graph m) as [connected|]; [|done].
  destruct (values_insert_all _ ∅) as [vs0|] eqn:Hself; [|done].
  apply values_insert_all_done in Hself as [-> _]. rewrite (left_id_L ∅ (∪)).
  destruct (for_each (add_neighbor_estimates m connected) _ _) as [vs|] eqn:Hest; [|done].
  destruct (for_each (add_neighbor_factors m connected) _ _) as [g|] eqn:Hfs; [|done].
  intros ?; simplify_eq. exists connected. split; [done|].
  apply add_neighbor_estimates_done in Hest as [Hsub Hvalues].
  apply add_neighbor_factors_done in Hfs as [-> Hfactors].
  rewrite add_loop_closures_spec, <- app_assoc. split; [done|]. split; [done|].
  intros id Hin. destruct (Hfactors id Hin) as (ge & Hge & Hall). exists ge.
  split; [done|]. split; [done|]. intros Hc.
  destruct (Hvalues id Hin Hc) as (ge' & Hge' & Hfresh). by simplify_eq.
Qed.


Lemma labelled_inv_frame id m m' :
  robot_id_ m' = robot_id_ m ->
  latest_local_symbol_ m' = latest_local_symbol_ m ->
  pose_graph_ m' = pose_graph_ m ->
  inter_robot_loop_closures_ m' = inter_robot_loop_closures_ m ->
  labelled_inv id m -> labelled_inv id m'.
Proof.
  intros Hid Hlatest Hgraph Hstore [? ? ? ?].
  split; unfold loop_closures_at in *; rewrite ?Hid, ?Hlatest, ?Hgraph, ?Hstore; done.
Qed.

Lemma new_store_is_empty (ps : list (N * N)) (store : gmap (N * N) (list Factor)) key :
  default [] (store !! key) = [] ->
  default [] (fold_left (fun acc p => map_insert_new (p.1, p.2) [] acc) ps store !! key) = [].
Proof.
  revert store. induction ps as [|p ps IH]; intros store Hstore; simpl; [done|].
  apply IH. unfold map_insert_new. destruct (store !! (p.1, p.2)) eqn:Hp; [done|].
  destruct (decide ((p.1, p.2) = key)) as [<- |Hne].
  - by rewrite lookup_insert_eq.
  - by rewrite lookup_insert_ne.
Qed.

Lemma labelled_inv_new nb_robots id max_waiting_param :
  labelled_inv id (PoseGraphManager_new nb_robots id max_waiting_param).
Proof.
  split; simpl; [done|by left|by intros f ?%elem_of_nil|].
  intros key f. unfold loop_closures_at. simpl.
  rewrite (for_pairs_index_pairs (fun i j store => map_insert_new (i, j) [] store)).
  rewrite new_store_is_empty by done. by intros ?%elem_of_nil.
Qed.

Lemma labelled_inv_odometry id msg m m' :
  labelled_inv id m -> odometry_callback msg m = Done m' -> labelled_inv id m'.
Proof.
  intros [Hid Hlatest Hgraph Hstore]. unfold odometry_callback. outcome_cases.
  destruct (values_insert _ _ _); [|done]. intros ?; simplify_eq.
  split; simpl; [done|by right| |done].
  case_decide as Hset; [|done].
  intros f [Hf| ->%list_elem_of_singleton]%elem_of_app; [by apply Hgraph|].
  destruct Hlatest as [?|Hlabel]; [done|]. eauto 10.
Qed.

Lemma labelled_inv_loop_closure id msg m :
  well_labelled (ev_inter_robot_loop_closure msg) ->
  labelled_inv id m -> labelled_inv id (inter_robot_loop_closure_callback msg m).
Proof.
  intros [Hr0 Hr1] [Hid Hlatest Hgraph Hstore].
  unfold inter_robot_loop_closure_callback. destruct (lc_success msg); [|done].
  split; simpl; [done|done|done|].
  intros key f. unfold loop_closures_at at 1. simpl.
  set (k := (N.min (lc_robot0_id msg) (lc_robot1_id msg),
             N.max (lc_robot0_id msg) (lc_robot1_id msg))).
  destruct (decide (k = key)) as [<- |Hne].
  - rewrite lookup_insert_eq. simpl.
    intros [Hf| ->%list_elem_of_singleton]%elem_of_app; [by apply (Hstore k)|].
    do 4 eexists. split; [done|]. unfold robot_of, label_round_trip in *. simpl.
    rewrite Hr0, Hr1. split; lia.
  - rewrite lookup_insert_ne by done. apply Hstore.
Qed.

Lemma labelled_inv_step id e m m' out :
  well_labelled e -> labelled_inv id m -> step e m = Done (m', out) -> labelled_inv id m'.
Proof.
  intros Hlab Hinv. destruct e as [msg|msg|ids|ids|msg|now|now]; simpl; intros Hstep.
  - outcome_cases. destruct (odometry_callback msg m) as [m1|] eqn:Hodo; [|done].
    simplify_eq. by eapply labelled_inv_odometry.
  - simplify_eq. by apply labelled_inv_loop_closure.
  - simplify_eq. by apply (labelled_inv_frame id m).
  - by simplify_eq.
  - simplify_eq. apply (labelled_inv_frame id m); [..|done];
      unfold pose_graph_callback; by destruct (check_received_pose_graphs _).
  - unfold optimization_callback in Hstep. case_decide; simplify_eq; [|done].
    by apply (labelled_inv_frame id m).
  - unfold optimization_loop_callback, optimization_loop_body in Hstep. outcome_cases.
    case_decide; [by simplify_eq|].
    destruct (optimizer_state_ m).
    + by simplify_eq.
    + simplify_eq. apply (labelled_inv_frame id m); [..|done];
        unfold check_waiting_timeout; by case_decide.
    + destruct (0 <? _)%nat; [destruct (for_each _ _ _)|]; simplify_eq;
        by apply (labelled_inv_frame id m).
    + destruct (perform_optimization m); simplify_eq.
      by apply (labelled_inv_frame id m).
Qed.

Lemma reachable_labelled_inv nb_robots id max_waiting_param m :
  reachable nb_robots id max_waiting_param m -> labelled_inv id m.
Proof.
  induction 1 as [|m m' e out _ IH Hlab Hstep].
  - apply labelled_inv_new.
  - by eapply labelled_inv_step.
Qed.

(** C3. In every state the executor can reach (loop-closure messages naming
    robots whose labels round-trip, as self's does), every factor of the
    joint graph the aggregator returns is a between-factor whose two endpoint
    robots are mapped to true by the connectivity map of the same run. *)
Theorem joint_graph_within_connected_set nb_robots id max_waiting_param m
    graph (estimates : Values) connected :
  reachable nb_robots id max_waiting_param m ->
  label_round_trip id ->
  aggregate_pose_graphs m = Done (graph, estimates) ->
  connected_robot_pose_graph m = Done connected ->
  forall f, f ∈ graph ->
    exists key1 key2 measured noise, f = BetweenFactor key1 key2 measured noise
      /\ flag_at connected (robot_of key1) = true
      /\ flag_at connected (robot_of key2) = true.
Proof.
  intros Hreach Hself Hagg Hconn f Hf.
  destruct (reachable_labelled_inv _ _ _ _ Hreach) as [Hid Hlatest Hgraph Hstore].
  apply aggregate_pose_graphs_done in Hagg as (c & Hc & -> & _ & _).
  rewrite Hconn in Hc. injection Hc as <-.
  assert (flag_at connected (robot_id_ m) = true) as Hme.
  { pose proof (connected_robot_pose_graph_spec m) as Hspec. rewrite Hconn in Hspec.
    destruct Hspec as [_ Hiff]. unfold flag_at.
    rewrite (proj2 (Hiff (robot_id_ m))); [done|constructor]. }
  rewrite !elem_of_app in Hf. destruct Hf as [Hf|[Hf|Hf]].
  - destruct (Hgraph f Hf) as (key1 & key2 & measured & noise & -> & Hl1 & Hl2).
    exists key1, key2, measured, noise. unfold robot_of. rewrite Hl1, Hl2, Hself.
    by rewrite <- Hid.
  - apply list_elem_of_In, in_flat_map in Hf as ([a b] & _ & Hf).
    unfold connected_closures in Hf. simpl in Hf.
    destruct (flag_at connected a) eqn:Ha; [|simpl in Hf; done].
    destruct (flag_at connected b) eqn:Hb; [|simpl in Hf; done].
    simpl in Hf.
    apply list_elem_of_In, Hstore in Hf
      as (key1 & key2 & measured & noise & -> & H1 & H2). simpl in H1, H2.
    exists key1, key2, measured, noise. split; [done|].
    destruct (N.min_spec a b) as [[_ Hmin]|[_ Hmin]],
             (N.max_spec a b) as [[_ Hmax]|[_ Hmax]];
      rewrite Hmin, Hmax in H1, H2; destruct H1 as [-> | ->], H2 as [-> | ->]; done.
  - apply list_elem_of_In, in_flat_map in Hf as (n & _ & Hf).
    apply filter_In in Hf as [_ Hf].
    destruct f as [key1 key2 measured noise| |]; simpl in Hf; [|done|done].
    apply andb_true_iff in Hf as [? ?]. by exists key1, key2, measured, noise.
Qed.

(** C4, as the code has it.  The aggregator calls [key1()] through the
    result of the downcast without testing it: when a factor received from a
    current neighbour is not a between-factor, the aggregation fails and no
    joint graph is produced; nothing is dropped for failing the cast. *)
Theorem malformed_factor_stops_aggregation m id ge f :
  id ∈ current_neighbors_ids_ m ->
  other_robots_graph_and_estimates_ m !! id = Some ge ->
  f ∈ ge.1 ->
  is_between f = false ->
  exists e, aggregate_pose_graphs m = Failed e.
Proof.
  intros Hin Hge Hf Hbad.
  destruct (aggregate_pose_graphs m) as [[graph estimates]|e] eqn:Hagg; [|by exists e].
  apply aggregate_pose_graphs_done in Hagg as (c & _ & _ & _ & Hall).
  destruct (Hall id Hin) as (ge' & Hge' & Hbetween & _). simplify_eq.
  apply Hbetween in Hf. congruence.
Qed.

(** C8, as the code has it.  [Values::insert] throws on a key that is
    already there: when a symbol is in both self's estimates and the values
    received from a connected neighbour, the aggregation fails; when it goes
    through, the joint estimates hold self's value at each of self's
    symbols. *)
Theorem shared_symbol_stops_aggregation m connected :
  connected_robot_pose_graph m = Done connected ->
  (forall id ge key,
      id ∈ current_neighbors_ids_ m ->
      flag_at connected id = true ->
      other_robots_graph_and_estimates_ m !! id = Some ge ->
      is_Some (ge.2 !! key) ->
      is_Some (current_pose_estimates_ m !! key) ->
      exists e, aggregate_pose_graphs m = Failed e)
  /\ (forall graph (estimates : Values) key value,
        aggregate_pose_graphs m = Done (graph, estimates) ->
        current_pose_estimates_ m !! key = Some value ->
        estimates !! key = Some value).
Proof.
  intros Hconn. split.
  - intros id ge key Hin Hflag Hge Hkey [v Hv].
    destruct (aggregate_pose_graphs m) as [[graph estimates]|e] eqn:Hagg; [|by exists e].
    apply aggregate_pose_graphs_done in Hagg as (c & Hc & _ & _ & Hall).
    rewrite Hconn in Hc. injection Hc as <-.
    destruct (Hall id Hin) as (ge' & Hge' & _ & Hfresh).
    rewrite Hge in Hge'. injection Hge' as <-.
    specialize (Hfresh Hflag key Hkey). congruence.
  - intros graph estimates key value Hagg Hv.
    apply aggregate_pose_graphs_done in Hagg as (c & _ & _ & Hsub & _).
    by eapply lookup_weaken.
Qed.

End AggregatorFacts.

Section ReachableFacts.
Context `{G : Gtsam} `{L : Labels} `{Opt : !GncOptimizer}.

(** A run that goes through stays among the reachable states. *)
Lemma reachable_run nb_robots id max_waiting_param (events : list Event)
    (m m' : PoseGraphManager) :
  Forall well_labelled events ->
  reachable nb_robots id max_waiting_param m ->
  (run events m).2 = Done m' ->
  reachable nb_robots id max_waiting_param m'.
Proof.
  intros Hlab. revert m. induction Hlab as [|e rest He _ IH]; intros m Hreach; simpl.
  - by intros [= <-].
  - destruct (step e m) as [[m1 out]|] eqn:Hstep; simpl; [|done].
    apply IH. by eapply reachable_step.
Qed.

End ReachableFacts.

(** * The model on the small fleet *)

Section FleetFacts.
Import Fleet.

(** The bug of the [visited] array on the smallest input: a robot without
    neighbours allocates no slot and writes slot 0. *)
Example no_neighbors_out_of_bounds :
  connected_robot_pose_graph robot0 = Failed (OutOfBounds 0).
Proof. evaluate. Qed.

(** A declaration the search never reads does no harm: robot 2 declares
    robot 7, but robot 2 itself is not reached. *)
Example unreached_declaration_in_bounds :
  connected_robot_pose_graph
    (final_state [ev_current_neighbors [1; 2];
                  ev_pose_graph (mkPoseGraphMsg 0 ∅ [] [1]);
                  ev_pose_graph (mkPoseGraphMsg 2 ∅ [] [7])] robot0)
  = Done {[0 := true; 1 := true; 2 := false]}.
Proof. evaluate. Qed.

(** Scenario S1 of the specification: three keyframes give two edges. *)
Example three_keyframes_two_edges :
  pose_graph_ (final_state (map ev_keyframe_odom three_keyframes) robot0)
  = [between 0 0 0 1 1; between 0 1 0 2 1].
Proof. evaluate. Qed.

(** C2 fails as stated: robot 2 is neither self nor a current neighbour of
    robot 0, yet the returned map sends it to true. *)
Lemma stray_id_is_connected :
  ~ (forall connected id,
       connected_robot_pose_graph stray_declaration = Done connected ->
       flag_at connected id = true ->
       id ∈ robot_id_ stray_declaration :: current_neighbors_ids_ stray_declaration).
Proof.
  intros Hclaim.
  assert (connected_robot_pose_graph stray_declaration
          = Done (connected_of stray_declaration)) as Hrun by evaluate.
  assert (flag_at (connected_of stray_declaration) 2 = true) as Hflag by evaluate.
  specialize (Hclaim _ 2 Hrun Hflag).
  assert (robot_id_ stray_declaration :: current_neighbors_ids_ stray_declaration
          = [0; 1; 5; 6]) as Hids by evaluate.
  rewrite Hids in Hclaim. revert Hclaim.
  apply (bool_decide_unpack (2 ∉ [0; 1; 5; 6])). evaluate.
Qed.

(** The amended C2 on the same state: the resolver returns, and its map is
    true exactly on the reached robots 0 and 2. *)
Lemma connected_map_is_reached_set_witness :
  connected_robot_pose_graph stray_declaration = Done (connected_of stray_declaration)
  /\ flag_at (connected_of stray_declaration) (robot_id_ stray_declaration) = true
  /\ (forall id, flag_at (connected_of stray_declaration) id = true
                 <-> reached stray_declaration id).
Proof.
  split; [evaluate|].
  apply (connected_map_is_reached_set stray_declaration). evaluate.
Defined.

(** The collected round is a state the executor reaches. *)
Lemma collected_reachable : reachable 8 0 60 collected.
Proof.
  apply (reachable_run 8 0 60
           (local_run ++ [ev_pose_graph own_answer; ev_pose_graph answer_of_1;
                          ev_pose_graph answer_of_2]) robot0).
  - repeat constructor.
  - constructor.
  - evaluate.
Qed.

(** C3 on the collected round (scenarios S2 and S3 of the specification):
    the joint graph holds robot 0's odometry edge, the loop closure with
    robot 1 and robot 1's odometry edge; robot 2's edge is filtered out. *)
Lemma joint_graph_within_connected_set_witness :
  reachable 8 0 60 collected
  /\ label_round_trip 0
  /\ aggregate_pose_graphs collected = Done (joint_of collected)
  /\ connected_robot_pose_graph collected = Done (connected_of collected)
  /\ (forall f, f ∈ (joint_of collected).1 ->
        exists key1 key2 measured noise, f = BetweenFactor key1 key2 measured noise
          /\ flag_at (connected_of collected) (robot_of key1) = true
          /\ flag_at (connected_of collected) (robot_of key2) = true).
Proof.
  split; [exact collected_reachable|].
  split; [evaluate|].
  split; [evaluate|].
  split; [evaluate|].
  apply (joint_graph_within_connected_set 8 0 60 collected
           (joint_of collected).1 (joint_of collected).2 (connected_of collected)).
  - exact collected_reachable.
  - evaluate.
  - evaluate.
  - evaluate.
Defined.

(** C4 fails as stated: with one factor from robot 1 that is not a
    between-factor the aggregation stops at the null pointer, where the
    round without that factor produces a joint graph. *)
Lemma malformed_factor_is_not_dropped :
  ~ (aggregate_pose_graphs collected = Done (joint_of collected) ->
     aggregate_pose_graphs (collected_with malformed_answer_of_1)
     = Done (joint_of collected)).
Proof.
  intros Hclaim.
  assert (aggregate_pose_graphs collected = Done (joint_of collected)) as Hgood by evaluate.
  specialize (Hclaim Hgood).
  assert (aggregate_pose_graphs (collected_with malformed_answer_of_1)
          = Failed NullPointer) as Hfail by evaluate.
  rewrite Hfail in Hclaim. exact (failed_not_done _ _ Hclaim).
Qed.

(** The amended C4 on the round with the malformed factor. *)
Lemma malformed_factor_stops_aggregation_witness :
  1 ∈ current_neighbors_ids_ (collected_with malformed_answer_of_1)
  /\ other_robots_graph_and_estimates_ (collected_with malformed_answer_of_1) !! 1
     = Some (pg_edges malformed_answer_of_1, pg_values malformed_answer_of_1)
  /\ OtherFactor ∈ (pg_edges malformed_answer_of_1, pg_values malformed_answer_of_1).1
  /\ is_between OtherFactor = false
  /\ exists e, aggregate_pose_graphs (collected_with malformed_answer_of_1) = Failed e.
Proof.
  assert (1 ∈ current_neighbors_ids_ (collected_with malformed_answer_of_1)) as Hin.
  { assert (current_neighbors_ids_ (collected_with malformed_answer_of_1) = [1; 2])
      as -> by evaluate.
    left. }
  assert (OtherFactor ∈ (pg_edges malformed_answer_of_1,
                         pg_values malformed_answer_of_1).1) as Hf.
  { simpl. left. }
  split; [exact Hin|]. split; [evaluate|]. split; [exact Hf|]. split; [evaluate|].
  apply (malformed_factor_stops_aggregation (collected_with malformed_answer_of_1) 1
           (pg_edges malformed_answer_of_1, pg_values malformed_answer_of_1) OtherFactor).
  - exact Hin.
  - evaluate.
  - exact Hf.
  - evaluate.
Defined.

(** C5 on a request over the robots 0, 1 and 2. *)
Lemma served_edges_are_own_loop_closures_witness :
  NoDup [0; 1; 2]
  /\ pg_edges (get_pose_graph_callback [0; 1; 2] all_closures)
     = pose_graph_ all_closures
       ++ flat_map (served_closures all_closures) (index_pairs [0; 1; 2])
  /\ (forall f, f ∈ pg_edges (get_pose_graph_callback [0; 1; 2] all_closures) <->
        f ∈ pose_graph_ all_closures
        \/ exists i j, i ∈ [0; 1; 2] /\ j ∈ [0; 1; 2] /\ i <> j
             /\ N.min i j = robot_id_ all_closures
             /\ f ∈ loop_closures_at all_closures (N.min i j, N.max i j)).
Proof.
  assert (NoDup [0; 1; 2]) as Hnd by (apply (bool_decide_unpack _); evaluate).
  split; [exact Hnd|].
  apply (served_edges_are_own_loop_closures [0; 1; 2] all_closures). exact Hnd.
Defined.

(** Scenario S6 of the specification: robot 0 serves its loop closures with
    the robots 1 and 2 and leaves out the one between 1 and 2. *)
Example served_edges_scenario :
  pg_edges (get_pose_graph_callback [0; 1; 2] all_closures)
  = [between 0 0 0 1 1; between 0 1 1 0 0; between 0 2 2 1 0].
Proof. evaluate. Qed.

(** C6 on three keyframes ingested by a fresh robot 0. *)
Lemma odometry_builds_a_chain_witness :
  to_uchar GRAPH_LABEL <> 0
  /\ pose_graph_ robot0 = []
  /\ current_pose_estimates_ robot0 = ∅
  /\ latest_local_symbol_ robot0 = default_symbol
  /\ three_keyframes <> []
  /\ increasing_ids three_keyframes
  /\ exists m', for_each odometry_callback three_keyframes robot0 = Done m'
       /\ size (current_pose_estimates_ m') = length three_keyframes
       /\ length (pose_graph_ m') = (size (current_pose_estimates_ m') - 1)%nat
       /\ (forall (k : nat) (a b : KeyframeOdom),
             three_keyframes !! k = Some a -> three_keyframes !! S k = Some b ->
             pose_graph_ m' !! k
             = Some (BetweenFactor (local_symbol robot0 (kf_id a))
                       (local_symbol robot0 (kf_id b))
                       (pose_compose (kf_odom b) (pose_inverse (kf_odom a)))
                       default_noise_model_)).
Proof.
  assert (to_uchar GRAPH_LABEL <> 0) as Hg by (vm_compute; discriminate).
  assert (three_keyframes <> []) as Hne by discriminate.
  assert (increasing_ids three_keyframes) as Hinc by (simpl; lia).
  split; [exact Hg|]. split; [evaluate|]. split; [evaluate|].
  split; [evaluate|]. split; [exact Hne|]. split; [exact Hinc|].
  apply (odometry_builds_a_chain robot0 three_keyframes);
    [exact Hg|evaluate|evaluate|evaluate|exact Hne|exact Hinc].
Defined.

(** C7 fails as stated: a round started before the first keyframe stays in
    [WAITING] at a loop tick a second past the deadline. *)
Lemma waiting_without_estimates_outlasts_deadline :
  ~ (optimizer_state_ waiting_without_estimates = WAITING ->
     (61000000000 - start_waiting_time_ waiting_without_estimates
      > max_waiting_time_sec_ waiting_without_estimates)%Z ->
     exists m' out,
       optimization_loop_callback 61000000000 waiting_without_estimates = Done (m', out)
       /\ optimizer_state_ m' = IDLE).
Proof.
  intros Hclaim. destruct Hclaim as (m' & out & Hstep & Hidle); [evaluate|by vm_compute|].
  assert (optimization_loop_callback 61000000000 waiting_without_estimates
          = Done (waiting_without_estimates, [pub_optimizer_state WAITING])) as Hrun
    by evaluate.
  rewrite Hrun in Hstep. injection Hstep as <- _.
  assert (optimizer_state_ waiting_without_estimates = WAITING) as Hwaiting by evaluate.
  rewrite Hwaiting in Hidle. discriminate Hidle.
Qed.

(** The amended C7 on a round started after the first keyframe, at a loop
    tick a second past the deadline. *)
Lemma waiting_times_out_with_estimates_witness :
  optimizer_state_ waiting_with_estimates = WAITING
  /\ current_pose_estimates_ waiting_with_estimates <> ∅
  /\ (61000000000 - start_waiting_time_ waiting_with_estimates
      > max_waiting_time_sec_ waiting_with_estimates)%Z
  /\ (exists m',
        optimization_loop_callback 61000000000 waiting_with_estimates
        = Done (m', [pub_optimizer_state IDLE])
        /\ optimizer_state_ m' = IDLE /\ is_waiting_ m' = false)
  /\ (forall events, quiet events waiting_with_estimates ->
        forall p, p ∈ (run events waiting_with_estimates).1 ->
                  is_optimization_result p = false).
Proof.
  assert (current_pose_estimates_ waiting_with_estimates <> ∅) as Hest.
  { intros Hempty.
    assert (current_pose_estimates_ waiting_with_estimates !! symbol_of 0 0 = Some 0%Z)
      as Hkey by evaluate.
    rewrite Hempty, lookup_empty in Hkey. discriminate Hkey. }
  assert (61000000000 - start_waiting_time_ waiting_with_estimates
          > max_waiting_time_sec_ waiting_with_estimates)%Z as Hlate by (by vm_compute).
  split; [evaluate|]. split; [exact Hest|]. split; [exact Hlate|].
  apply (waiting_times_out_with_estimates waiting_with_estimates 61000000000);
    [evaluate|exact Hest|exact Hlate].
Defined.

(** C8 fails as stated: robot 1 is connected and sends a value for a symbol
    robot 0 holds; the aggregation throws instead of keeping robot 0's
    value. *)
Lemma shared_symbol_throws :
  ~ (exists graph (estimates : Values),
       aggregate_pose_graphs (collected_with clashing_answer_of_1) = Done (graph, estimates)
       /\ estimates !! symbol_of 0 0
          = current_pose_estimates_ (collected_with clashing_answer_of_1) !! symbol_of 0 0).
Proof.
  intros (graph & estimates & Hagg & _).
  assert (aggregate_pose_graphs (collected_with clashing_answer_of_1)
          = Failed ValuesKeyAlreadyExists) as Hfail by evaluate.
  rewrite Hfail in Hagg. exact (failed_not_done _ _ Hagg).
Qed.

(** The amended C8 on the collected round, where no symbol is shared. *)
Lemma shared_symbol_stops_aggregation_witness :
  connected_robot_pose_graph collected = Done (connected_of collected)
  /\ (forall id ge key,
        id ∈ current_neighbors_ids_ collected ->
        flag_at (connected_of collected) id = true ->
        other_robots_graph_and_estimates_ collected !! id = Some ge ->
        is_Some (ge.2 !! key) ->
        is_Some (current_pose_estimates_ collected !! key) ->
        exists e, aggregate_pose_graphs collected = Failed e)
  /\ (forall graph (estimates : Values) key value,
        aggregate_pose_graphs collected = Done (graph, estimates) ->
        current_pose_estimates_ collected !! key = Some value ->
        estimates !! key = Some value).
Proof.
  split; [evaluate|].
  apply (shared_symbol_stops_aggregation collected (connected_of collected)). evaluate.
Defined.

(** C9 fails as stated: robot 0 stores a loop closure between the robots 1
    and 2 only, and publishes robot 2 as connected although no stored loop
    closure links robot 2 with robot 0. *)
Lemma connected_robot_without_own_closure :
  ~ (forall x, x ∈ pg_connected_robots (get_pose_graph_callback [0; 1; 2] foreign_closure) ->
       loop_closures_at foreign_closure
         (N.min x (robot_id_ foreign_closure), N.max x (robot_id_ foreign_closure)) <> []).
Proof.
  intros Hclaim. apply (Hclaim 2); [|evaluate].
  assert (pg_connected_robots (get_pose_graph_callback [0; 1; 2] foreign_closure) = [2])
    as -> by evaluate.
  left.
Qed.

(** C10 on a round that has not heard from the discovery service: the
    answer of robot 2 alone starts the optimization. *)
Lemma pose_graph_without_neighbors_starts_optimization_witness :
  current_neighbors_ids_ waiting_without_estimates = []
  /\ check_received_pose_graphs (record_pose_graph answer_of_2 waiting_without_estimates) = true
  /\ is_waiting_ (pose_graph_callback answer_of_2 waiting_without_estimates) = false
  /\ optimizer_state_ (pose_graph_callback answer_of_2 waiting_without_estimates)
     = OPTIMIZATION.
Proof.
  split; [evaluate|].
  apply (pose_graph_without_neighbors_starts_optimization waiting_without_estimates answer_of_2).
  evaluate.
Defined.

End FleetFacts.

(** * Further properties of the callbacks *)

Section StepFacts.
Context `{G : Gtsam} `{L : Labels} `{Opt : !GncOptimizer}.
Implicit Types (m : PoseGraphManager) (events : list Event).

Lemma optimization_loop_callback_done now m m' out :
  optimization_loop_callback now m = Done (m', out) <-> loop_tick now m m' out.
Proof.
  unfold optimization_loop_callback, optimization_loop_body. outcome_cases. split.
  - case_decide as Hest.
    { intros [= <- <-]. by constructor. }
    destruct (optimizer_state_ m) eqn:Hstate.
    + intros [= <- <-]. simpl. rewrite Hstate. by constructor.
    + intros [= <- <-]. simpl. by constructor.
    + destruct (0 <? length (current_neighbors_ids_ m))%nat eqn:Hlen.
      * destruct (for_each (request_pose_graph m) (current_neighbors_ids_ m) [])
          as [sent|] eqn:Hsent; [|done].
        intros [= <- <-]. simpl. apply tick_requests; try done.
        intros Hids. by rewrite Hids in Hlen.
      * intros [= <- <-]. simpl. apply tick_no_neighbors; try done.
        by destruct (current_neighbors_ids_ m).
    + destruct (perform_optimization m) as [result|] eqn:Hres; [|done].
      intros [= <- <-]. simpl. by constructor.
  - intros [Hest|Hest Hs|Hest Hs|Hest Hs Hids|sent Hest Hs Hids Hsent|result Hest Hs Hres].
    + by rewrite decide_True.
    + rewrite decide_False by done. rewrite Hs. simpl. by rewrite Hs.
    + rewrite decide_False by done. by rewrite Hs.
    + rewrite decide_False by done. by rewrite Hs, Hids.
    + rewrite decide_False by done. rewrite Hs, Hsent.
      destruct (current_neighbors_ids_ m); done.
    + rewrite decide_False by done. by rewrite Hs, Hres.
Qed.

Lemma step_done e m m' out : step e m = Done (m', out) <-> stepped m e m' out.
Proof.
  split.
  - destruct e as [msg|msg|ids|ids|msg|now|now]; simpl.
    + outcome_cases. destruct (odometry_callback msg m) eqn:Hodo; [|done].
      intros [= <- <-]. by constructor.
    + intros [= <- <-]. constructor.
    + intros [= <- <-]. constructor.
    + intros [= <- <-]. constructor.
    + intros [= <- <-]. constructor.
    + unfold optimization_callback. case_decide; intros [= <- <-]; by constructor.
    + intros Hloop%optimization_loop_callback_done. by constructor.
  - intros [msg m1 Hodo|msg|ids|ids|msg|now Hs|now Hs|now m1 out1 Hloop]; simpl; try done.
    + outcome_cases. by rewrite Hodo.
    + unfold optimization_callback. by rewrite decide_True.
    + unfold optimization_callback. by rewrite decide_False.
    + by apply optimization_loop_callback_done.
Qed.

(** A property every event keeps is kept by every run. *)
Lemma run_invariant (P : PoseGraphManager -> Prop) :
  (forall m e m' out, P m -> stepped m e m' out -> P m') ->
  forall events m m', P m -> (run events m).2 = Done m' -> P m'.
Proof.
  intros Hstep events. induction events as [|e rest IH]; intros m m' HP; simpl.
  - by intros [= <-].
  - destruct (step e m) as [[m1 out]|] eqn:He; simpl; [|done].
    apply IH. eapply Hstep; [done|]. by apply step_done.
Qed.

Lemma odometry_callback_done msg m m' :
  odometry_callback msg m = Done m' <->
  current_pose_estimates_ m !! local_symbol m (kf_id msg) = None
  /\ m' = with_local_graph m
            (if decide (latest_local_symbol_ m ≠ default_symbol)
             then pose_graph_ m ++
                    [BetweenFactor (latest_local_symbol_ m) (local_symbol m (kf_id msg))
                       (pose_compose (kf_odom msg) (pose_inverse (latest_local_pose_ m)))
                       default_noise_model_]
             else pose_graph_ m)
            (<[local_symbol m (kf_id msg) := kf_odom msg]> (current_pose_estimates_ m))
            (local_symbol m (kf_id msg)) (kf_odom msg).
Proof.
  unfold odometry_callback, values_insert. outcome_cases.
  destruct (current_pose_estimates_ m !! local_symbol m (kf_id msg)) eqn:Hfresh.
  - split; [done|]. by intros [? _].
  - split; [by intros [= <-]|]. by intros [_ ->].
Qed.

Lemma odometry_callback_failed msg m e :
  odometry_callback msg m = Failed e <->
  e = ValuesKeyAlreadyExists
  /\ is_Some (current_pose_estimates_ m !! local_symbol m (kf_id msg)).
Proof.
  unfold odometry_callback, values_insert. outcome_cases.
  destruct (current_pose_estimates_ m !! local_symbol m (kf_id msg)) eqn:Hfresh.
  - split; [intros [= <-]; eauto|]. by intros [-> _].
  - split; [done|]. by intros [_ [? ?]].
Qed.

End StepFacts.

(** Splits the conditionals of the callbacks that only move fields around. *)
Ltac callback_cases :=
  unfold pose_graph_callback, current_neighbors_callback,
    inter_robot_loop_closure_callback, check_waiting_timeout, start_waiting,
    end_waiting, reinitialize_received_pose_graphs, record_pose_graph in *;
  repeat case_match; simpl in *.

Section FrameFacts.
Context `{G : Gtsam} `{L : Labels} `{Opt : !GncOptimizer}.
Implicit Types (m : PoseGraphManager) (events : list Event).

Lemma loop_tick_data now m m' out :
  loop_tick now m m' out ->
  robot_id_ m' = robot_id_ m /\ nb_robots_ m' = nb_robots_ m
  /\ max_waiting_time_sec_ m' = max_waiting_time_sec_ m
  /\ pose_graph_ m' = pose_graph_ m
  /\ current_pose_estimates_ m' = current_pose_estimates_ m
  /\ latest_local_symbol_ m' = latest_local_symbol_ m
  /\ latest_local_pose_ m' = latest_local_pose_ m
  /\ inter_robot_loop_closures_ m' = inter_robot_loop_closures_ m
  /\ current_neighbors_ids_ m' = current_neighbors_ids_ m
  /\ received_pose_graphs_ m' = received_pose_graphs_ m
  /\ other_robots_graph_and_estimates_ m' = other_robots_graph_and_estimates_ m
  /\ received_pose_graphs_connectivity_ m' = received_pose_graphs_connectivity_ m.
Proof. intros []; callback_cases; done. Qed.

(** No callback touches the configuration. *)
Lemma stepped_config m e m' out :
  stepped m e m' out ->
  robot_id_ m' = robot_id_ m /\ nb_robots_ m' = nb_robots_ m
  /\ max_waiting_time_sec_ m' = max_waiting_time_sec_ m.
Proof.
  intros [msg m1 Hodo|msg|ids|ids|msg|now Hs|now Hs|now m1 out1 Hloop];
    try (callback_cases; done).
  - apply odometry_callback_done in Hodo as [_ ->]. done.
  - apply loop_tick_data in Hloop. tauto.
Qed.

(** Only the odometry callback touches the local graph. *)
Lemma stepped_local m e m' out :
  stepped m e m' out -> (forall msg, e <> ev_keyframe_odom msg) ->
  pose_graph_ m' = pose_graph_ m
  /\ current_pose_estimates_ m' = current_pose_estimates_ m
  /\ latest_local_symbol_ m' = latest_local_symbol_ m
  /\ latest_local_pose_ m' = latest_local_pose_ m.
Proof.
  intros [msg m1 Hodo|msg|ids|ids|msg|now Hs|now Hs|now m1 out1 Hloop] Hne;
    try (callback_cases; done).
  - by destruct (Hne msg).
  - apply loop_tick_data in Hloop. tauto.
Qed.

(** Only the loop-closure callback touches the store. *)
Lemma stepped_store m e m' out :
  stepped m e m' out -> (forall msg, e <> ev_inter_robot_loop_closure msg) ->
  inter_robot_loop_closures_ m' = inter_robot_loop_closures_ m.
Proof.
  intros [msg m1 Hodo|msg|ids|ids|msg|now Hs|now Hs|now m1 out1 Hloop] Hne;
    try (callback_cases; done).
  - apply odometry_callback_done in Hodo as [_ ->]. done.
  - by destruct (Hne msg).
  - apply loop_tick_data in Hloop. tauto.
Qed.

End FrameFacts.

Section LocalGraphFacts.
Context `{G : Gtsam} `{L : Labels} `{Opt : !GncOptimizer}.
Implicit Types (m : PoseGraphManager) (events : list Event).

Lemma ingest_done_iff m (seen : list N) (keyframes : list KeyframeOdom) :
  (forall key, is_Some (current_pose_estimates_ m !! key)
               <-> exists i, i ∈ seen /\ key = local_symbol m i) ->
  (exists m', for_each odometry_callback keyframes m = Done m')
  <-> NoDup (map kf_id keyframes) /\ forall e, e ∈ keyframes -> kf_id e ∉ seen.
Proof.
  revert m seen. induction keyframes as [|e rest IH]; intros m seen Hdom.
  - split; [intros _|by exists m]. split; [constructor|]. by intros e ?%elem_of_nil.
  - cbn [for_each map].
    destruct (odometry_callback e m) as [m1|err] eqn:Hodo.
    + apply odometry_callback_done in Hodo as [Hfresh Hm1]. cbn [mbind outcome_bind].
      assert (kf_id e ∉ seen) as Hnew.
      { intros Hin. apply eq_None_not_Some in Hfresh. apply Hfresh, Hdom. eauto. }
      rewrite (IH m1 (kf_id e :: seen)).
      * rewrite NoDup_cons, list_elem_of_fmap. split.
        -- intros [Hnd Hall]. split; [split; [|done]|].
           ++ intros (e' & Heq & Hin). apply (Hall e' Hin). rewrite <- Heq. left.
           ++ intros e' [-> |Hin]%elem_of_cons; [done|].
              intros ?. apply (Hall e' Hin). by right.
        -- intros [[Hnotin Hnd] Hall]. split; [done|].
           intros e' Hin [Heq|Hseen]%elem_of_cons.
           ++ apply Hnotin. by exists e'.
           ++ apply (Hall e'); [by right|done].
      * intros key. subst m1. simpl. unfold local_symbol. simpl.
        fold (local_symbol m (kf_id e)).
        destruct (decide (key = local_symbol m (kf_id e))) as [-> |Hne].
        -- rewrite lookup_insert_eq. split; [intros _|by eauto].
           exists (kf_id e). split; [left|done].
        -- rewrite lookup_insert_ne by done. rewrite Hdom. split.
           ++ intros (i & ? & ?). exists i. split; [by right|done].
           ++ intros (i & [-> |?]%elem_of_cons & ?); [done|]. eauto.
    + apply odometry_callback_failed in Hodo as [_ Hpresent]. cbn [mbind outcome_bind].
      split; [by intros [? ?]|]. intros [_ Hall].
      apply Hdom in Hpresent as (i & Hin & Heq).
      apply local_symbol_index in Heq as <-.
      destruct (Hall e); [left|done].
Qed.

(** X1. A stream of keyframes is ingested without error by a manager with no
    estimates exactly when its keyframe ids are pairwise distinct; the order
    of the ids plays no part. *)
Theorem odometry_accepts_exactly_distinct_ids m (keyframes : list KeyframeOdom) :
  current_pose_estimates_ m = ∅ ->
  (exists m', for_each odometry_callback keyframes m = Done m')
  <-> NoDup (map kf_id keyframes).
Proof.
  intros Hempty. rewrite (ingest_done_iff m []).
  - split; [tauto|]. intros Hnd. split; [done|]. by intros e _ ?%elem_of_nil.
  - intros key. rewrite Hempty, lookup_empty. split; [by intros [? ?]|].
    by intros (i & ?%elem_of_nil & _).
Qed.

Lemma odometry_or_not (e : Event) :
  (exists msg, e = ev_keyframe_odom msg) \/ (forall msg, e <> ev_keyframe_odom msg).
Proof. destruct e; eauto; by right. Qed.

Lemma chain_inv_stepped m e m' out : chain_inv m -> stepped m e m' out -> chain_inv m'.
Proof.
  intros Hinv Hstep. destruct (odometry_or_not e) as [[msg ->]|Hne].
  - inversion Hstep as [msg' m1 Hodo| | | | | | |]; subst.
    apply odometry_callback_done in Hodo as [Hfresh ->].
    destruct Hinv as [Hlatest Hgraph]. split; simpl.
    + right. exists (kf_id msg). split; [done|]. unfold local_symbol at 1. simpl.
      fold (local_symbol m (kf_id msg)). by rewrite lookup_insert_eq.
    + assert (forall key, is_Some (current_pose_estimates_ m !! key) ->
                is_Some (<[local_symbol m (kf_id msg) := kf_odom msg]>
                           (current_pose_estimates_ m) !! key)) as Hkeep.
      { intros key Hkey. rewrite lookup_insert_is_Some.
        destruct (decide (local_symbol m (kf_id msg) = key)); auto. }
      assert (forall f, f ∈ pose_graph_ m ->
                exists i j measured,
                  f = BetweenFactor (local_symbol m i) (local_symbol m j) measured
                        default_noise_model_
                  /\ i <> j
                  /\ is_Some (<[local_symbol m (kf_id msg) := kf_odom msg]>
                                (current_pose_estimates_ m) !! local_symbol m i)
                  /\ is_Some (<[local_symbol m (kf_id msg) := kf_odom msg]>
                                (current_pose_estimates_ m) !! local_symbol m j)) as Hold.
      { intros f Hf. destruct (Hgraph f Hf) as (i & j & p & -> & ? & ? & ?).
        exists i, j, p. auto. }
      case_decide as Hset; [|exact Hold].
      intros f [Hf| ->%list_elem_of_singleton]%elem_of_app; [by apply Hold|].
      destruct Hlatest as [?|(i & Hi & Hpresent)]; [done|].
      exists i, (kf_id msg), (pose_compose (kf_odom msg) (pose_inverse (latest_local_pose_ m))).
      rewrite Hi. split; [done|]. split.
      * intros ->. rewrite Hfresh in Hpresent. by destruct Hpresent.
      * split; [by apply Hkeep|]. by rewrite lookup_insert_eq.
  - destruct (stepped_local m e m' out Hstep Hne) as (Hg & He & Hls & _).
    destruct (stepped_config m e m' out Hstep) as (Hid & _).
    unfold chain_inv, local_symbol in *. rewrite Hg, He, Hls, Hid. done.
Qed.

Lemma chain_inv_new nb_robots id max_waiting_param :
  chain_inv (PoseGraphManager_new nb_robots id max_waiting_param).
Proof. split; simpl; [by left|]. by intros f ?%elem_of_nil. Qed.

(** X3. Whatever events a freshly constructed manager has processed, every
    factor of its local graph is a between-factor, with the default noise,
    between two different symbols of self, both of which have an estimate. *)
Theorem local_factors_link_own_estimates nb_robots id max_waiting_param events m :
  (run events (PoseGraphManager_new nb_robots id max_waiting_param)).2 = Done m ->
  forall f, f ∈ pose_graph_ m ->
    exists i j measured,
      f = BetweenFactor (local_symbol m i) (local_symbol m j) measured default_noise_model_
      /\ i <> j
      /\ is_Some (current_pose_estimates_ m !! local_symbol m i)
      /\ is_Some (current_pose_estimates_ m !! local_symbol m j).
Proof.
  intros Hrun.
  apply (run_invariant chain_inv chain_inv_stepped events _ m
           (chain_inv_new nb_robots id max_waiting_param) Hrun).
Qed.

Lemma count_inv_stepped m e m' out :
  to_uchar GRAPH_LABEL <> 0 -> count_inv m -> stepped m e m' out -> count_inv m'.
Proof.
  intros Hg Hinv Hstep.
  destruct (odometry_or_not e) as [[msg ->]|Hne].
  - inversion Hstep as [msg' m1 Hodo| | | | | | |]; subst.
    apply odometry_callback_done in Hodo as [Hfresh ->].
    right. simpl. split; [by apply local_symbol_set|].
    rewrite map_size_insert_None by done.
    destruct Hinv as [(Hl & Hgr & He)|[Hl Hcount]].
    + rewrite decide_False by (rewrite Hl; auto). by rewrite Hgr, He, map_size_empty.
    + rewrite decide_True by done. rewrite length_app. simpl. lia.
  - destruct (stepped_local m e m' out Hstep Hne) as (Hgr & He & Hls & _).
    unfold count_inv. by rewrite Hgr, He, Hls.
Qed.

(** X2. Whatever events a freshly constructed manager has processed, its
    local graph has one factor fewer than it has estimates (and none when it
    has no estimate), provided the graph label is not the zero character of
    the sentinel symbol. *)
Theorem local_graph_has_one_edge_less nb_robots id max_waiting_param events m :
  to_uchar GRAPH_LABEL <> 0 ->
  (run events (PoseGraphManager_new nb_robots id max_waiting_param)).2 = Done m ->
  length (pose_graph_ m) = (size (current_pose_estimates_ m) - 1)%nat.
Proof.
  intros Hg Hrun.
  assert (count_inv m) as [(_ & -> & ->)|[_ Hcount]].
  { apply (run_invariant count_inv (fun m e m' out => count_inv_stepped m e m' out Hg)
             events (PoseGraphManager_new nb_robots id max_waiting_param) m); [|done].
    by left. }
  - by rewrite map_size_empty.
  - lia.
Qed.

End LocalGraphFacts.

Section GrowthFacts.
Context `{G : Gtsam} `{L : Labels} `{Opt : !GncOptimizer}.
Implicit Types (m : PoseGraphManager) (events : list Event).

Lemma grows_refl m : grows m m.
Proof. repeat split; done. Qed.

Lemma grows_trans m1 m2 m3 : grows m1 m2 -> grows m2 m3 -> grows m1 m3.
Proof.
  intros (? & ? & ? & Hg12 & He12 & Hs12) (? & ? & ? & Hg23 & He23 & Hs23).
  split; [congruence|]. split; [congruence|]. split; [congruence|].
  split; [by etrans|]. split; [by etrans|].
  intros key. etrans; [apply Hs12|apply Hs23].
Qed.

Lemma stepped_grows m e m' out : stepped m e m' out -> grows m m'.
Proof.
  intros Hstep. destruct (stepped_config m e m' out Hstep) as (Hid & Hnb & Hmax).
  split; [done|]. split; [done|]. split; [done|].
  inversion Hstep as [msg m1 Hodo|msg|ids|ids|msg|now Hs|now Hs|now m1 out1 Hloop]; subst.
  - apply odometry_callback_done in Hodo as [Hfresh ->]. simpl.
    split; [case_decide; [by apply prefix_app_r|done]|].
    split; [by apply insert_subseteq|done].
  - unfold inter_robot_loop_closure_callback. destruct (lc_success msg); [|done].
    simpl. split; [done|]. split; [done|]. intros key. unfold loop_closures_at at 2. simpl.
    set (k := (N.min _ _, N.max _ _)).
    destruct (decide (k = key)) as [<- |Hne].
    + rewrite lookup_insert_eq. simpl. by apply prefix_app_r.
    + by rewrite lookup_insert_ne.
  - done.
  - done.
  - unfold pose_graph_callback. by case_match.
  - done.
  - done.
  - apply loop_tick_data in Hloop as (_ & _ & _ & Hg & He & _ & _ & Hst & _).
    unfold loop_closures_at. by rewrite Hg, He, Hst.
Qed.

(** X4. Nothing stored is ever removed or reordered: over any run that does
    not fail, the local graph and every loop-closure store entry are
    extended at the end only, every estimate keeps its value, and the robot
    id, fleet size and timeout are unchanged. *)
Theorem run_grows events m m' : (run events m).2 = Done m' -> grows m m'.
Proof.
  intros Hrun.
  apply (run_invariant (grows m)
           (fun m1 e m2 out H12 Hs => grows_trans m m1 m2 H12 (stepped_grows m1 e m2 out Hs))
           events m m' (grows_refl m) Hrun).
Qed.

Lemma loop_closure_or_not (e : Event) :
  (exists msg, e = ev_inter_robot_loop_closure msg)
  \/ (forall msg, e <> ev_inter_robot_loop_closure msg).
Proof. destruct e; eauto; by right. Qed.

Lemma store_inv_stepped m e m' out :
  well_labelled e -> store_inv m -> stepped m e m' out -> store_inv m'.
Proof.
  intros Hlab Hinv Hstep. destruct (loop_closure_or_not e) as [[msg ->]|Hne].
  - inversion Hstep; subst. destruct Hlab as [Hr0 Hr1].
    unfold inter_robot_loop_closure_callback. destruct (lc_success msg); [|done].
    intros key f. unfold loop_closures_at at 1. simpl.
    set (k := (N.min (lc_robot0_id msg) (lc_robot1_id msg),
               N.max (lc_robot0_id msg) (lc_robot1_id msg))).
    destruct (decide (k = key)) as [<- |Hneq].
    + rewrite lookup_insert_eq. simpl.
      intros [Hf| ->%list_elem_of_singleton]%elem_of_app; [by apply (Hinv k)|].
      split; [lia|]. do 3 eexists. split; [done|]. split; [done|]. split; [done|].
      unfold robot_of, label_round_trip in *. simpl. rewrite Hr0, Hr1. lia.
    + rewrite lookup_insert_ne by done. apply Hinv.
  - pose proof (stepped_store m e m' out Hstep Hne) as Hst.
    unfold store_inv, loop_closures_at in *. by rewrite Hst.
Qed.

Lemma store_inv_new nb_robots id max_waiting_param :
  store_inv (PoseGraphManager_new nb_robots id max_waiting_param).
Proof.
  intros key f. unfold loop_closures_at. simpl.
  rewrite (for_pairs_index_pairs (fun i j store => map_insert_new (i, j) [] store)).
  rewrite new_store_is_empty by done. by intros ?%elem_of_nil.
Qed.

(** X5. In every state the executor reaches (loop-closure messages naming
    robots whose labels round-trip), a factor stored under the pair
    [(lo, hi)] has [lo <= hi], carries the graph label and the default
    noise, and links a symbol of robot [lo] with a symbol of robot [hi], in
    one direction or the other. *)
Theorem store_entries_link_their_pair nb_robots id max_waiting_param m :
  reachable nb_robots id max_waiting_param m ->
  forall key f, f ∈ loop_closures_at m key ->
    key.1 <= key.2
    /\ exists key1 key2 measured,
         f = BetweenFactor key1 key2 measured default_noise_model_
         /\ sym_chr key1 = to_uchar GRAPH_LABEL /\ sym_chr key2 = to_uchar GRAPH_LABEL
         /\ ((robot_of key1 = key.1 /\ robot_of key2 = key.2)
             \/ (robot_of key1 = key.2 /\ robot_of key2 = key.1)).
Proof.
  induction 1 as [|m m' e out _ IH Hlab Hstep].
  - apply store_inv_new.
  - apply (store_inv_stepped m e m' out Hlab IH). by apply step_done.
Qed.

End GrowthFacts.

Section ExchangeFacts.
Context `{G : Gtsam} `{L : Labels} `{Opt : !GncOptimizer}.
Implicit Types (m : PoseGraphManager) (events : list Event).

Lemma ids_below_elem (n i : N) : i ∈ ids_below n <-> i < n.
Proof.
  unfold ids_below. rewrite list_elem_of_fmap. split.
  - intros (k & -> & Hk%elem_of_seq). lia.
  - intros Hlt. exists (N.to_nat i). split; [by rewrite N2Nat.id|].
    apply elem_of_seq. lia.
Qed.

Lemma reset_flags_lookup (ids : list N) (flags : gmap N bool) (i : N) :
  fold_left (fun acc id => <[id := false]> acc) ids flags !! i
  = if decide (i ∈ ids) then Some false else flags !! i.
Proof.
  revert flags. induction ids as [|id ids IH]; intros flags; cbn [fold_left].
  - rewrite decide_False; [done|apply not_elem_of_nil].
  - rewrite IH. destruct (decide (i ∈ ids)) as [Hin|Hnotin].
    + rewrite decide_True; [done|by right].
    + destruct (decide (i = id)) as [-> |Hne].
      * rewrite lookup_insert_eq. rewrite decide_True; [done|left].
      * rewrite lookup_insert_ne by done. rewrite decide_False; [done|].
        by intros [?|?]%elem_of_cons.
Qed.

(** X7. Starting a round clears the recorded sub-graphs and declarations and
    resets the received flag of every robot id below [nb_robots_]; the flag
    of an id at or above [nb_robots_] is left as it was. *)
Theorem reinitialize_resets_known_robots_only m :
  other_robots_graph_and_estimates_ (reinitialize_received_pose_graphs m) = ∅
  /\ received_pose_graphs_connectivity_ (reinitialize_received_pose_graphs m) = ∅
  /\ (forall id, id < nb_robots_ m ->
        received_pose_graphs_ (reinitialize_received_pose_graphs m) !! id = Some false)
  /\ (forall id, nb_robots_ m <= id ->
        received_pose_graphs_ (reinitialize_received_pose_graphs m) !! id
        = received_pose_graphs_ m !! id).
Proof.
  split; [done|]. split; [done|]. simpl. split; intros id Hid; rewrite reset_flags_lookup.
  - rewrite decide_True; [done|]. by apply ids_below_elem.
  - rewrite decide_False; [done|]. rewrite ids_below_elem. lia.
Qed.

Lemma all_received_fold (flags : gmap N bool) (ids : list N) (b : bool) :
  fold_left (fun received_all id => received_all && flag_at flags id) ids b = true
  <-> b = true /\ forall id, id ∈ ids -> flag_at flags id = true.
Proof.
  revert b. induction ids as [|id ids IH]; intros b; simpl.
  - split; [intros ->; split; [done|]; by intros id ?%elem_of_nil|by intros [? _]].
  - rewrite IH, andb_true_iff. split.
    + intros [[-> Hid] Hall]. split; [done|]. by intros id' [-> |?]%elem_of_cons; auto.
    + intros [-> Hall]. split; [split; [done|]; apply Hall; left|].
      intros id' ?. apply Hall. by right.
Qed.

(** X8. The all-received test holds exactly when the received flag of every
    current neighbour is set; ids without a flag count as not received. *)
Theorem check_received_pose_graphs_iff m :
  check_received_pose_graphs m = true
  <-> forall id, id ∈ current_neighbors_ids_ m ->
        received_pose_graphs_ m !! id = Some true.
Proof.
  unfold check_received_pose_graphs. rewrite all_received_fold. split.
  - intros [_ Hall] id Hin. specialize (Hall id Hin). unfold flag_at in Hall.
    by destruct (received_pose_graphs_ m !! id) as [[]|].
  - intros Hall. split; [done|]. intros id Hin. unfold flag_at. by rewrite (Hall id Hin).
Qed.

Lemma check_received_flags m m' :
  current_neighbors_ids_ m' = current_neighbors_ids_ m ->
  (forall id, flag_at (received_pose_graphs_ m) id = true ->
              flag_at (received_pose_graphs_ m') id = true) ->
  check_received_pose_graphs m = true -> check_received_pose_graphs m' = true.
Proof.
  unfold check_received_pose_graphs. rewrite !all_received_fold. intros -> Hmono [_ Hall].
  split; [done|]. intros id Hin. by apply Hmono, Hall.
Qed.

Lemma map_insert_new_lookup {K V : Type} `{Countable K} (k j : K) (v : V) (s : gmap K V) :
  map_insert_new k v s !! j
  = if decide (j = k) then Some (default v (s !! k)) else s !! j.
Proof.
  unfold map_insert_new. destruct (s !! k) as [w|] eqn:Hk.
  - case_decide as Hj; [|done]. subst j. by rewrite Hk.
  - case_decide as Hj.
    + subst j. by rewrite lookup_insert_eq.
    + by rewrite lookup_insert_ne.
Qed.

(** X9. The first sub-graph of a robot in a round wins: after a sub-graph
    message the sender's flag is set and the recorded graph, values and
    declaration of the sender are those recorded before if there were any,
    else those of the message; the records of every other robot, the
    neighbour list, the local graph, the estimates and the loop-closure
    store are untouched. *)
Theorem pose_graph_callback_keeps_first_answer msg m :
  let m' := pose_graph_callback msg m in
  received_pose_graphs_ m' !! pg_robot_id msg = Some true
  /\ other_robots_graph_and_estimates_ m' !! pg_robot_id msg
     = Some (default (pg_edges msg, pg_values msg)
               (other_robots_graph_and_estimates_ m !! pg_robot_id msg))
  /\ received_pose_graphs_connectivity_ m' !! pg_robot_id msg
     = Some (default (pg_connected_robots msg)
               (received_pose_graphs_connectivity_ m !! pg_robot_id msg))
  /\ (forall id, id <> pg_robot_id msg ->
        received_pose_graphs_ m' !! id = received_pose_graphs_ m !! id
        /\ other_robots_graph_and_estimates_ m' !! id
           = other_robots_graph_and_estimates_ m !! id
        /\ received_pose_graphs_connectivity_ m' !! id
           = received_pose_graphs_connectivity_ m !! id)
  /\ current_neighbors_ids_ m' = current_neighbors_ids_ m
  /\ pose_graph_ m' = pose_graph_ m
  /\ current_pose_estimates_ m' = current_pose_estimates_ m
  /\ inter_robot_loop_closures_ m' = inter_robot_loop_closures_ m.
Proof.
  intros m'.
  assert (received_pose_graphs_ m' = <[pg_robot_id msg := true]> (received_pose_graphs_ m)
          /\ other_robots_graph_and_estimates_ m'
             = map_insert_new (pg_robot_id msg) (pg_edges msg, pg_values msg)
                 (other_robots_graph_and_estimates_ m)
          /\ received_pose_graphs_connectivity_ m'
             = map_insert_new (pg_robot_id msg) (pg_connected_robots msg)
                 (received_pose_graphs_connectivity_ m)
          /\ current_neighbors_ids_ m' = current_neighbors_ids_ m
          /\ pose_graph_ m' = pose_graph_ m
          /\ current_pose_estimates_ m' = current_pose_estimates_ m
          /\ inter_robot_loop_closures_ m' = inter_robot_loop_closures_ m)
    as (-> & -> & -> & Hrest).
  { unfold m', pose_graph_callback. case_match; repeat split; done. }
  rewrite lookup_insert_eq, !map_insert_new_lookup, !decide_True by done.
  do 3 (split; [done|]). split; [|done].
  intros id Hne. rewrite lookup_insert_ne, !map_insert_new_lookup by done.
  by rewrite !decide_False.
Qed.

End ExchangeFacts.

Section RoundFacts.
Context `{G : Gtsam} `{L : Labels} `{Opt : !GncOptimizer}.
Implicit Types (m : PoseGraphManager) (events : list Event).

Lemma exchange_inv_new nb_robots id max_waiting_param :
  exchange_inv (PoseGraphManager_new nb_robots id max_waiting_param).
Proof.
  split; [|split; [done|by split]]. simpl. intros i _. unfold flag_at.
  assert (forall (ids : list N) (flags : gmap N bool),
            (forall k, default false (flags !! k) = false) ->
            forall k, default false
                        (fold_left (fun acc i => map_insert_new i false acc) ids flags !! k)
                      = false) as Hfold.
  { induction ids as [|j ids IH]; intros flags Hflags k; simpl; [done|].
    apply IH. intros k'. rewrite map_insert_new_lookup. case_decide; [|done].
    simpl. by destruct (flags !! j) as [[]|] eqn:Hj; [specialize (Hflags j); rewrite Hj in Hflags|..]. }
  rewrite Hfold; [done|]. intros k. by rewrite lookup_empty.
Qed.

Lemma exchange_inv_stepped m e m' out : exchange_inv m -> stepped m e m' out -> exchange_inv m'.
Proof.
  intros Hinv Hstep. pose proof Hinv as (Hrec & Hopt & Hwait).
  inversion Hstep as [msg m1 Hodo|msg|ids|ids|msg|now Hs|now Hs|now m1 out1 Hloop]; subst.
  - apply odometry_callback_done in Hodo as [_ ->]. done.
  - unfold inter_robot_loop_closure_callback. by destruct (lc_success msg).
  - split; [done|]. split; [done|]. simpl. split; done.
  - done.
  - assert (forall id, id < nb_robots_ m ->
              flag_at (<[pg_robot_id msg := true]> (received_pose_graphs_ m)) id = true ->
              is_Some (map_insert_new (pg_robot_id msg) (pg_edges msg, pg_values msg)
                         (other_robots_graph_and_estimates_ m) !! id)
              /\ is_Some (map_insert_new (pg_robot_id msg) (pg_connected_robots msg)
                            (received_pose_graphs_connectivity_ m) !! id)) as Hrec'.
    { intros id Hlt. unfold flag_at. rewrite !map_insert_new_lookup.
      destruct (decide (id = pg_robot_id msg)) as [-> |Hne]; [by eauto|].
      rewrite lookup_insert_ne by done. by apply Hrec. }
    unfold pose_graph_callback.
    destruct (check_received_pose_graphs (record_pose_graph msg m)) eqn:Hcheck; simpl.
    + split; [done|]. split; [done|]. split; done.
    + split; [done|]. split; [|done]. intros Hs. specialize (Hopt Hs).
      assert (check_received_pose_graphs (record_pose_graph msg m) = true) as Hall;
        [|congruence].
      revert Hopt. apply check_received_flags; [done|].
      simpl. intros id. unfold flag_at.
      destruct (decide (id = pg_robot_id msg)) as [-> |Hne].
      * by rewrite lookup_insert_eq.
      * by rewrite lookup_insert_ne.
  - split; [|split; [done|by split]]. simpl. intros id Hlt. unfold flag_at.
    rewrite reset_flags_lookup, decide_True; [done|]. by apply ids_below_elem.
  - done.
  - inversion Hloop as [Hest|Hest Hs|Hest Hs|Hest Hs Hids|sent Hest Hs Hids Hsent
                        |result Hest Hs Hres]; subst; try done.
    + unfold check_waiting_timeout. case_decide; [|done].
      split; [done|]. split; [done|]. by split.
    + split; [done|]. split; [done|]. simpl. split; [|done]. intros Hw.
      apply Hwait in Hw. congruence.
    + split; [done|]. split; [done|]. simpl. split; [|done]. intros Hw.
      apply Hwait in Hw. congruence.
Qed.

(** X10. In every state a freshly constructed manager reaches, a robot id
    below [nb_robots_] whose received flag is set has a recorded sub-graph
    and a recorded connectivity declaration. *)
Theorem received_flag_means_recorded nb_robots robot_id max_waiting_param events m :
  (run events (PoseGraphManager_new nb_robots robot_id max_waiting_param)).2 = Done m ->
  forall id, id < nb_robots_ m ->
    received_pose_graphs_ m !! id = Some true ->
    is_Some (other_robots_graph_and_estimates_ m !! id)
    /\ is_Some (received_pose_graphs_connectivity_ m !! id).
Proof.
  intros Hrun id Hlt Hflag.
  destruct (run_invariant exchange_inv exchange_inv_stepped events _ m
              (exchange_inv_new nb_robots robot_id max_waiting_param) Hrun) as (Hrec & _).
  apply Hrec; [done|]. unfold flag_at. by rewrite Hflag.
Qed.

(** X11. In every state a freshly constructed manager reaches, the optimizer
    is in [OPTIMIZATION] only while every current neighbour has answered:
    each has its received flag set, and each with an id below [nb_robots_]
    has a recorded sub-graph, so the aggregator finds it. *)
Theorem optimization_only_after_all_answers nb_robots robot_id max_waiting_param events m :
  (run events (PoseGraphManager_new nb_robots robot_id max_waiting_param)).2 = Done m ->
  optimizer_state_ m = OPTIMIZATION ->
  forall id, id ∈ current_neighbors_ids_ m ->
    received_pose_graphs_ m !! id = Some true
    /\ (id < nb_robots_ m -> is_Some (other_robots_graph_and_estimates_ m !! id)).
Proof.
  intros Hrun Hstate id Hin.
  destruct (run_invariant exchange_inv exchange_inv_stepped events _ m
              (exchange_inv_new nb_robots robot_id max_waiting_param) Hrun)
    as (Hrec & Hopt & _).
  specialize (Hopt Hstate). unfold check_received_pose_graphs in Hopt.
  apply all_received_fold in Hopt as [_ Hall]. specialize (Hall id Hin).
  split.
  - unfold flag_at in Hall. by destruct (received_pose_graphs_ m !! id) as [[]|].
  - intros Hlt. by apply Hrec.
Qed.

(** X12. In every state a freshly constructed manager reaches, the flag
    [is_waiting_] is set exactly when the optimizer state is [WAITING]. *)
Theorem is_waiting_iff_waiting_state nb_robots robot_id max_waiting_param events m :
  (run events (PoseGraphManager_new nb_robots robot_id max_waiting_param)).2 = Done m ->
  is_waiting_ m = true <-> optimizer_state_ m = WAITING.
Proof.
  intros Hrun.
  apply (run_invariant exchange_inv exchange_inv_stepped events _ m
           (exchange_inv_new nb_robots robot_id max_waiting_param) Hrun).
Qed.

End RoundFacts.

Section TickFacts.
Context `{G : Gtsam} `{L : Labels} `{Opt : !GncOptimizer}.
Implicit Types (m : PoseGraphManager) (events : list Event).

Lemma request_pose_graph_done m (ids : list N) (sent sent' : list Publication) :
  for_each (request_pose_graph m) ids sent = Done sent'
  <-> Forall (fun id => id < nb_robots_ m) ids /\ sent' = sent ++ map (request_to m) ids.
Proof.
  revert sent. induction ids as [|id ids IH]; intros sent; cbn [for_each map].
  - rewrite app_nil_r. split; [intros [= <-]; by split|by intros [_ ->]].
  - replace (request_pose_graph m id sent)
      with (if id <? nb_robots_ m then Done (sent ++ [request_to m id])
            else Failed NullPointer) by done.
    destruct (N.ltb_spec id (nb_robots_ m)) as [Hlt|Hge]; cbn [mbind outcome_bind].
    + rewrite IH, Forall_cons, <- app_assoc. simpl. tauto.
    + split; [done|]. intros [[Hlt _]%Forall_cons _]. lia.
Qed.

Lemma request_pose_graph_failed m (ids : list N) (sent : list Publication) e :
  for_each (request_pose_graph m) ids sent = Failed e ->
  e = NullPointer /\ ~ Forall (fun id => id < nb_robots_ m) ids.
Proof.
  revert sent. induction ids as [|id ids IH]; intros sent; cbn [for_each]; [done|].
  replace (request_pose_graph m id sent)
    with (if id <? nb_robots_ m then Done (sent ++ [request_to m id])
          else Failed NullPointer) by done.
  destruct (N.ltb_spec id (nb_robots_ m)) as [Hlt|Hge]; cbn [mbind outcome_bind].
  - intros [-> Hnot]%IH. split; [done|]. by intros [_ ?]%Forall_cons.
  - intros [= <-]. split; [done|]. intros [? _]%Forall_cons. lia.
Qed.

Lemma perform_optimization_done m result :
  perform_optimization m = Done result
  <-> exists joint, aggregate_pose_graphs m = Done joint /\ result = result_message m joint.
Proof.
  unfold perform_optimization. outcome_cases.
  destruct (aggregate_pose_graphs m) as [joint|]; split.
  - intros [= <-]. by exists joint.
  - by intros (joint' & [= <-] & ->).
  - done.
  - by intros (? & ? & _).
Qed.

(** X13. The request stage.  With estimates present and the optimizer in
    [POSEGRAPH_COLLECTION], a loop tick goes through exactly when every
    current neighbour has an id below [nb_robots_] (there is no publisher
    for any other id); it then sends each neighbour, in order, one request
    carrying the neighbours followed by self, publishes the state, and starts
    waiting from the time of the tick -- or, with no neighbour at all, sends
    nothing and returns to [IDLE]. *)
Theorem loop_tick_requests_sub_graphs now m :
  current_pose_estimates_ m <> ∅ ->
  optimizer_state_ m = POSEGRAPH_COLLECTION ->
  (Forall (fun id => id < nb_robots_ m) (current_neighbors_ids_ m) ->
     optimization_loop_callback now m
     = if decide (current_neighbors_ids_ m = [])
       then Done (with_optimizer_state m IDLE, [pub_optimizer_state IDLE])
       else Done (start_waiting now m,
                  map (request_to m) (current_neighbors_ids_ m)
                  ++ [pub_optimizer_state WAITING]))
  /\ (~ Forall (fun id => id < nb_robots_ m) (current_neighbors_ids_ m) ->
        optimization_loop_callback now m = Failed NullPointer).
Proof.
  intros Hest Hstate. split.
  - intros Hall. case_decide as Hids; apply optimization_loop_callback_done.
    + by apply tick_no_neighbors.
    + apply tick_requests; try done. by apply request_pose_graph_done.
  - intros Hnot.
    destruct (optimization_loop_callback now m) as [[m' out]|e] eqn:Hloop.
    + apply optimization_loop_callback_done in Hloop.
      inversion Hloop as [?|? Hs|? Hs|? Hs Hids|sent ? Hs Hids Hsent|result ? Hs ?];
        subst; try congruence.
      * destruct Hnot. rewrite Hids. constructor.
      * apply request_pose_graph_done in Hsent as [? _]. done.
    + unfold optimization_loop_callback, optimization_loop_body in Hloop. outcome_cases.
      rewrite decide_False, Hstate in Hloop by done.
      destruct (0 <? _)%nat; [|done].
      destruct (for_each _ _ _) as [|e'] eqn:Hsent; [done|].
      apply request_pose_graph_failed in Hsent as [-> _]. by simplify_eq.
Qed.


(** X15. A loop tick before the deadline (elapsed time at most the maximal
    waiting time) leaves a waiting manager exactly as it is and publishes
    [WAITING]. *)
Theorem loop_tick_before_deadline now m :
  current_pose_estimates_ m <> ∅ ->
  optimizer_state_ m = WAITING ->
  (now - start_waiting_time_ m <= max_waiting_time_sec_ m)%Z ->
  optimization_loop_callback now m = Done (m, [pub_optimizer_state WAITING]).
Proof.
  intros Hest Hstate Hearly. apply optimization_loop_callback_done.
  pose proof (tick_waiting now m Hest Hstate) as Htick.
  unfold check_waiting_timeout in Htick. rewrite decide_False in Htick by lia.
  by rewrite Hstate in Htick.
Qed.

Lemma loop_tick_publications now m m' out :
  loop_tick now m m' out ->
  exists before, out = before ++ [pub_optimizer_state (optimizer_state_ m')]
    /\ ((before = [] /\ (optimizer_state_ m = OPTIMIZATION -> current_pose_estimates_ m = ∅
                         ))
        \/ (optimizer_state_ m = POSEGRAPH_COLLECTION
            /\ before = map (request_to m) (current_neighbors_ids_ m))
        \/ (optimizer_state_ m = OPTIMIZATION /\ current_pose_estimates_ m <> ∅
            /\ optimizer_state_ m' = IDLE
            /\ exists joint, aggregate_pose_graphs m = Done joint
                 /\ before = [result_message m joint])).
Proof.
  intros [Hest|Hest Hs|Hest Hs|Hest Hs Hids|sent Hest Hs Hids Hsent|result Hest Hs Hres].
  - exists []. split; [done|]. left. done.
  - exists []. split; [by rewrite Hs|]. left. split; [done|congruence].
  - exists []. split; [done|]. left. split; [done|congruence].
  - exists []. split; [done|]. left. split; [done|congruence].
  - exists sent. split; [done|]. right. left. split; [done|].
    by apply request_pose_graph_done in Hsent as [_ ->].
  - exists [result]. split; [done|]. right. right.
    apply perform_optimization_done in Hres as (joint & ? & ->). eauto 10.
Qed.

(** X16. An optimization result is published by nothing but a loop tick that
    finds the optimizer in [OPTIMIZATION] with estimates present and leaves
    it in [IDLE]; the result is the message built from the joint graph and
    estimates the aggregator returns in that state. *)
Theorem result_only_from_optimization_state e m m' out p :
  step e m = Done (m', out) ->
  p ∈ out ->
  is_optimization_result p = true ->
  exists now joint,
    e = ev_optimization_loop_timer now
    /\ optimizer_state_ m = OPTIMIZATION
    /\ current_pose_estimates_ m <> ∅
    /\ optimizer_state_ m' = IDLE
    /\ aggregate_pose_graphs m = Done joint
    /\ p = result_message m joint.
Proof.
  intros Hstep%step_done Hin Hres.
  inversion Hstep as [msg m1 Hodo|msg|ids|ids|msg|now Hs|now Hs|now m1 out1 Hloop]; subst;
    try (by apply elem_of_nil in Hin);
    try (apply list_elem_of_singleton in Hin as ->; done).
  apply loop_tick_publications in Hloop
    as (before & -> & [[-> _]|[[_ ->]|(Hs & Hest & Hidle & joint & Hagg & ->)]]).
  - apply list_elem_of_singleton in Hin as ->. done.
  - apply elem_of_app in Hin as [Hin| ->%list_elem_of_singleton]; [|done].
    apply list_elem_of_fmap in Hin as (id & -> & _). done.
  - apply elem_of_app in Hin as [->%list_elem_of_singleton| ->%list_elem_of_singleton];
      [|done].
    exists now, joint. done.
Qed.

(** X17. A new round is announced by nothing but a trigger tick that finds
    the optimizer in [IDLE]: only then is [get_current_neighbors] published,
    exactly once, and the manager is left waiting from the time of the tick
    with no recorded sub-graph or declaration. *)
Theorem new_round_only_from_idle e m m' out :
  step e m = Done (m', out) ->
  pub_get_current_neighbors ∈ out ->
  exists now,
    e = ev_optimization_timer now
    /\ optimizer_state_ m = IDLE
    /\ out = [pub_get_current_neighbors]
    /\ optimizer_state_ m' = WAITING
    /\ is_waiting_ m' = true
    /\ start_waiting_time_ m' = now
    /\ other_robots_graph_and_estimates_ m' = ∅
    /\ received_pose_graphs_connectivity_ m' = ∅.
Proof.
  intros Hstep%step_done Hin.
  inversion Hstep as [msg m1 Hodo|msg|ids|ids|msg|now Hs|now Hs|now m1 out1 Hloop]; subst;
    try (by apply elem_of_nil in Hin);
    try (apply list_elem_of_singleton in Hin; done).
  - exists now. done.
  - apply loop_tick_publications in Hloop
      as (before & -> & [[-> _]|[[_ ->]|(_ & _ & _ & joint & _ & ->)]]).
    + apply list_elem_of_singleton in Hin. done.
    + apply elem_of_app in Hin as [Hin|Hin%list_elem_of_singleton]; [|done].
      apply list_elem_of_fmap in Hin as (id & ? & _). done.
    + apply elem_of_app in Hin as [Hin%list_elem_of_singleton|Hin%list_elem_of_singleton];
        done.
Qed.

(** X18. Every loop tick that does not fail publishes the optimizer state
    exactly once, as its last message, and the state it publishes is the one
    it leaves the manager in. *)
Theorem loop_tick_publishes_final_state now m m' out :
  optimization_loop_callback now m = Done (m', out) ->
  exists before,
    out = before ++ [pub_optimizer_state (optimizer_state_ m')]
    /\ forall p state, p ∈ before -> p <> pub_optimizer_state state.
Proof.
  intros Hloop%optimization_loop_callback_done.
  apply loop_tick_publications in Hloop
    as (before & -> & [[-> _]|[[_ ->]|(_ & _ & _ & joint & _ & ->)]]);
    eexists; (split; [done|]); intros p state Hin.
  - by apply elem_of_nil in Hin.
  - apply list_elem_of_fmap in Hin as (id & -> & _). done.
  - apply list_elem_of_singleton in Hin as ->. done.
Qed.

End TickFacts.

Section SearchFacts.
Context `{G : Gtsam} `{L : Labels} `{Opt : !GncOptimizer}.
Implicit Types (m : PoseGraphManager) (events : list Event).

(** X20. The search starts from self's own connectivity declaration, which is
    only there once self has received its own sub-graph message.  With no
    such declaration (or an empty one) and self's id inside [visited], the
    resolver returns a map that is true on self alone, whatever the
    neighbours declared. *)
Theorem search_without_own_declaration m :
  connectivity_at m (robot_id_ m) = [] ->
  robot_id_ m < N.of_nat (length (current_neighbors_ids_ m)) ->
  exists connected, connected_robot_pose_graph m = Done connected
    /\ forall id, flag_at connected id = true <-> id = robot_id_ m.
Proof.
  intros Hnone Hlt.
  assert (forall id, reached m id <-> id = robot_id_ m) as Hreached.
  { intros id. split; [|intros ->; constructor].
    induction 1 as [|r id _ IH Hdecl]; [done|]. subst r. rewrite Hnone in Hdecl.
    by apply elem_of_nil in Hdecl. }
  pose proof (connected_robot_pose_graph_spec m) as Hspec.
  destruct (connected_robot_pose_graph m) as [connected|e].
  - exists connected. split; [done|]. destruct Hspec as [_ Hiff]. intros id.
    rewrite <- Hreached, <- Hiff. unfold flag_at.
    destruct (connected !! id) as [[]|]; naive_solver.
  - destruct e as [id| | |]; try done. destruct Hspec as [Hid Hge].
    apply Hreached in Hid as ->. lia.
Qed.

(** X21. The search loop ends: with fuel for one iteration per slot of
    [visited] and one more, the resolver never runs out of fuel, and any
    larger amount of fuel gives the same result. *)
Theorem search_terminates m fuel :
  (S (length (current_neighbors_ids_ m)) <= fuel)%nat ->
  connected_robot_pose_graph_fuel fuel m = connected_robot_pose_graph m
  /\ connected_robot_pose_graph m <> Failed OutOfFuel.
Proof.
  intros Hfuel. split; [by apply connected_robot_pose_graph_fuel_enough|].
  pose proof (connected_robot_pose_graph_spec m) as Hspec. intros Heq.
  by rewrite Heq in Hspec.
Qed.

Lemma set_insert_sorted (x : N) (s : list N) :
  StronglySorted N.lt s -> StronglySorted N.lt (set_insert x s).
Proof.
  induction 1 as [|y s Hs IH Hall]; simpl; [repeat constructor|].
  destruct (N.ltb_spec x y) as [Hlt|Hge].
  - constructor; [by constructor|]. constructor; [done|].
    eapply Forall_impl; [done|]. simpl. lia.
  - destruct (N.eqb_spec x y) as [-> |Hne]; [by constructor|].
    constructor; [done|]. apply Forall_forall. intros z [-> |Hz]%set_insert_elem; [lia|].
    by eapply Forall_forall in Hall.
Qed.

Lemma serve_pairs_sorted m (ps : list (N * N)) (acc : list Factor * list N) :
  StronglySorted N.lt acc.2 ->
  StronglySorted N.lt (fold_left (fun acc p => serve_pair m p.1 p.2 acc) ps acc).2.
Proof.
  revert acc. induction ps as [|p ps IH]; intros acc Hacc; simpl; [done|].
  apply IH. unfold serve_pair. destruct (0 <? _)%nat; [|done]. simpl.
  by apply set_insert_sorted.
Qed.

(** X22. The sub-graph served for a request: it names self, carries self's
    current estimates, its edges start with the whole local graph, and its
    [connected_robots] are in strictly ascending order (so without
    repetition) and are all ids of the request. *)
Theorem served_message_shape ids m :
  let msg := get_pose_graph_callback ids m in
  pg_robot_id msg = robot_id_ m
  /\ pg_values msg = current_pose_estimates_ m
  /\ pose_graph_ m `prefix_of` pg_edges msg
  /\ StronglySorted N.lt (pg_connected_robots msg)
  /\ forall x, x ∈ pg_connected_robots msg -> x ∈ ids.
Proof.
  intros msg. destruct (get_pose_graph_callback_spec ids m) as [Hedges Hconn].
  assert (pg_robot_id msg = robot_id_ m /\ pg_values msg = current_pose_estimates_ m
          /\ StronglySorted N.lt (pg_connected_robots msg)) as (? & ? & ?).
  { unfold msg, get_pose_graph_callback. rewrite for_pairs_index_pairs.
    pose proof (serve_pairs_sorted m (index_pairs ids) (pose_graph_ m, [])) as Hsorted.
    destruct (fold_left _ _ _) as [graph connected]. simpl in *.
    repeat split; try done. apply Hsorted. constructor. }
  split; [done|]. split; [done|]. split; [|split; [done|]].
  - fold msg in Hedges. rewrite Hedges. by apply prefix_app_r.
  - intros x ([a b] & Hin & _ & ->)%Hconn. apply index_pairs_elem in Hin as [? ?].
    simpl. destruct (N.max_spec a b) as [[_ ->]|[_ ->]]; done.
Qed.

End SearchFacts.

Section JointFacts.
Context `{G : Gtsam} `{L : Labels} `{Opt : !GncOptimizer}.
Implicit Types (m : PoseGraphManager) (connected : gmap N bool).

Lemma values_insert_all_lookup (src vs vs' : Values) key value :
  values_insert_all src vs = Done vs' ->
  vs' !! key = Some value <-> vs !! key = Some value \/ src !! key = Some value.
Proof.
  intros [-> Hfresh]%values_insert_all_done. apply lookup_union_Some.
  apply map_disjoint_spec. intros k x y Hx Hy. rewrite Hfresh in Hx; [done|by eexists].
Qed.

Lemma add_neighbor_estimates_lookup m connected (ids : list N) (vs vs' : Values) key value :
  for_each (add_neighbor_estimates m connected) ids vs = Done vs' ->
  vs' !! key = Some value
  <-> vs !! key = Some value
      \/ exists id, id ∈ ids /\ flag_at connected id = true
           /\ received_values m id !! key = Some value.
Proof.
  revert vs. induction ids as [|id ids IH]; intros vs Hrun; simpl in Hrun.
  - simplify_eq. split; [auto|]. by intros [?|(id & ?%elem_of_nil & _)].
  - outcome_cases. unfold add_neighbor_estimates at 1 in Hrun.
    destruct (flag_at connected id) eqn:Hflag.
    + destruct (other_robots_graph_and_estimates_ m !! id) as [ge|] eqn:Hge; [|done].
      destruct (values_insert_all _ _) as [vs1|] eqn:Hins; [|done].
      rewrite (IH _ Hrun), (values_insert_all_lookup _ _ _ _ _ Hins).
      assert (received_values m id = ge.2) as Hvalues
        by (unfold received_values; by rewrite Hge).
      split.
      * intros [[?|?]|(id' & ? & ? & ?)]; [by left| |].
        -- right. exists id. rewrite Hvalues. split; [left|done].
        -- right. exists id'. split; [by right|done].
      * intros [?|(id' & [-> |?]%elem_of_cons & ? & Hv)]; [by left; left| |].
        -- left. right. by rewrite <- Hvalues.
        -- right. eauto.
    + rewrite (IH _ Hrun). split.
      * intros [?|(id' & ? & ? & ?)]; [by left|]. right. exists id'. split; [by right|done].
      * intros [?|(id' & [-> |?]%elem_of_cons & ? & Hv)]; [by left|congruence|].
        right. eauto.
Qed.

(** X23. The joint graph in closed form.  When the aggregator returns, its
    graph is the local graph, then the stored loop closures of every pair of
    positions of neighbours-then-self whose two robots are connected, then,
    neighbour by neighbour, the received factors whose two endpoint robots
    are connected -- whether or not the sender itself is. *)
Theorem joint_graph_closed_form m graph (estimates : Values) connected :
  aggregate_pose_graphs m = Done (graph, estimates) ->
  connected_robot_pose_graph m = Done connected ->
  graph = pose_graph_ m
          ++ flat_map (connected_closures m connected)
               (index_pairs (current_neighbors_ids_ m ++ [robot_id_ m]))
          ++ flat_map (fun id => List.filter (both_connected connected) (received_edges m id))
               (current_neighbors_ids_ m).
Proof.
  intros (c & Hc & -> & _)%aggregate_pose_graphs_done Hconn.
  rewrite Hconn in Hc. by injection Hc as <-.
Qed.

(** X24. The joint estimates.  When the aggregator returns, a symbol has a
    value in the joint estimates exactly when self has that value for it or
    a connected current neighbour sent that value for it; what a
    disconnected neighbour sent is left out. *)
Theorem joint_estimates_from_connected_robots m graph (estimates : Values) connected :
  aggregate_pose_graphs m = Done (graph, estimates) ->
  connected_robot_pose_graph m = Done connected ->
  forall key value,
    estimates !! key = Some value
    <-> current_pose_estimates_ m !! key = Some value
        \/ exists id, id ∈ current_neighbors_ids_ m /\ flag_at connected id = true
             /\ received_values m id !! key = Some value.
Proof.
  unfold aggregate_pose_graphs. outcome_cases. intros Hagg Hconn. rewrite Hconn in Hagg.
  destruct (values_insert_all _ ∅) as [vs0|] eqn:Hself; [|done].
  apply values_insert_all_done in Hself as [-> _]. rewrite (left_id_L ∅ (∪)) in Hagg.
  destruct (for_each (add_neighbor_estimates m connected) _ _) as [vs|] eqn:Hest; [|done].
  destruct (for_each (add_neighbor_factors m connected) _ _) as [g|]; [|done].
  injection Hagg as <- <-. intros key value.
  apply (add_neighbor_estimates_lookup _ _ _ _ _ _ _ Hest).
Qed.

Lemma add_received_factors_total connected (fs graph : list Factor) :
  (forall f, f ∈ fs -> is_between f = true) ->
  exists graph', for_each (add_received_factor connected) fs graph = Done graph'.
Proof.
  revert graph. induction fs as [|f fs IH]; intros graph Hall; simpl; [by eexists|].
  assert (is_between f = true) as Hf by (apply Hall; left).
  destruct f as [key1 key2 measured noise| |]; try done. simpl.
  destruct (_ && _); simpl; apply IH; intros f' ?; apply Hall; by right.
Qed.

Lemma add_neighbor_factors_total m connected (ids : list N) (graph : list Factor) :
  (forall id, id ∈ ids -> is_Some (other_robots_graph_and_estimates_ m !! id)) ->
  (forall id f, id ∈ ids -> f ∈ received_edges m id -> is_between f = true) ->
  exists graph', for_each (add_neighbor_factors m connected) ids graph = Done graph'.
Proof.
  revert graph. induction ids as [|id ids IH]; intros graph Hentries Hall; cbn [for_each];
    [by eexists|].
  destruct (Hentries id) as [ge Hge]; [left|].
  destruct (add_received_factors_total connected ge.1 graph) as [graph1 Hgraph1].
  { intros f Hf. apply (Hall id); [left|]. unfold received_edges. by rewrite Hge. }
  replace (add_neighbor_factors m connected id graph) with (@Done (list Factor) graph1)
    by (unfold add_neighbor_factors; by rewrite Hge).
  cbn [mbind outcome_bind]. apply IH.
  - intros id' ?. apply Hentries. by right.
  - intros id' f ? ?. apply (Hall id'); [by right|done].
Qed.

Lemma add_neighbor_estimates_total m connected (ids : list N) (vs : Values) :
  NoDup ids ->
  (forall id, id ∈ ids -> is_Some (other_robots_graph_and_estimates_ m !! id)) ->
  (forall id, id ∈ ids -> flag_at connected id = true -> received_values m id ##ₘ vs) ->
  (forall id1 id2, id1 ∈ ids -> id2 ∈ ids -> id1 <> id2 ->
     flag_at connected id1 = true -> flag_at connected id2 = true ->
     received_values m id1 ##ₘ received_values m id2) ->
  exists vs', for_each (add_neighbor_estimates m connected) ids vs = Done vs'.
Proof.
  intros Hnd. revert vs. induction Hnd as [|id ids Hnotin Hnd IH];
    intros vs Hentries Hfresh Hpair; cbn [for_each]; [by eexists|].
  destruct (flag_at connected id) eqn:Hflag.
  - destruct (Hentries id) as [ge Hge]; [left|].
    assert (received_values m id = ge.2) as Hvalues
      by (unfold received_values; by rewrite Hge).
    assert (ge.2 ##ₘ vs) as Hdisj by (rewrite <- Hvalues; apply Hfresh; [left|done]).
    replace (add_neighbor_estimates m connected id vs) with (@Done Values (vs ∪ ge.2)).
    + cbn [mbind outcome_bind]. apply IH.
      * intros id' ?. apply Hentries. by right.
      * intros id' Hin' Hflag'. apply map_disjoint_union_r. split.
        -- apply Hfresh; [by right|done].
        -- rewrite <- Hvalues. apply Hpair; [by right|left| |done|done].
           intros ->. done.
      * intros id1 id2 ? ?. apply Hpair; by right.
    + unfold add_neighbor_estimates, values_insert_all. rewrite Hflag, Hge.
      rewrite bool_decide_eq_true_2; [done|].
      intros key value Hkey. eapply map_disjoint_Some_l; done.
  - replace (add_neighbor_estimates m connected id vs) with (@Done Values vs)
      by (unfold add_neighbor_estimates; by rewrite Hflag).
    cbn [mbind outcome_bind]. apply IH.
    + intros id' ?. apply Hentries. by right.
    + intros id' ? ?. apply Hfresh; [by right|done].
    + intros id1 id2 ? ?. apply Hpair; by right.
Qed.

(** X25. When the aggregation goes through.  If the resolver returns, the
    current neighbours are pairwise distinct and each has a recorded
    sub-graph, every received factor is a between-factor, and the estimates
    of self and the values of the connected neighbours have pairwise
    disjoint symbols, then the aggregator returns a joint graph and joint
    estimates. *)
Theorem aggregation_goes_through m connected :
  connected_robot_pose_graph m = Done connected ->
  NoDup (current_neighbors_ids_ m) ->
  (forall id, id ∈ current_neighbors_ids_ m ->
     is_Some (other_robots_graph_and_estimates_ m !! id)) ->
  (forall id f, id ∈ current_neighbors_ids_ m -> f ∈ received_edges m id ->
     is_between f = true) ->
  (forall id, id ∈ current_neighbors_ids_ m -> flag_at connected id = true ->
     received_values m id ##ₘ current_pose_estimates_ m) ->
  (forall id1 id2, id1 ∈ current_neighbors_ids_ m -> id2 ∈ current_neighbors_ids_ m ->
     id1 <> id2 -> flag_at connected id1 = true -> flag_at connected id2 = true ->
     received_values m id1 ##ₘ received_values m id2) ->
  exists joint, aggregate_pose_graphs m = Done joint.
Proof.
  intros Hconn Hnd Hentries Hbetween Hself Hpair.
  unfold aggregate_pose_graphs. outcome_cases. rewrite Hconn.
  unfold values_insert_all at 1. rewrite bool_decide_eq_true_2 by (intros ? ? _; apply lookup_empty).
  rewrite (left_id_L ∅ (∪)).
  destruct (add_neighbor_estimates_total m connected (current_neighbors_ids_ m)
              (current_pose_estimates_ m) Hnd Hentries Hself Hpair) as [vs ->].
  destruct (add_neighbor_factors_total m connected (current_neighbors_ids_ m)
              (for_pairs (add_loop_closures m connected)
                 (current_neighbors_ids_ m ++ [robot_id_ m]) (pose_graph_ m))
              Hentries Hbetween) as [g ->].
  by eexists.
Qed.

End JointFacts.

Section MoreFacts.
Context `{G : Gtsam} `{L : Labels} `{Opt : !GncOptimizer}.
Implicit Types (m : PoseGraphManager) (connected : gmap N bool).

(** X6. A loop-closure message is filed under the ordered pair of its two
    robot ids, whichever way round the message names them: with [success]
    set, that entry (created if it was not there) gains the factor of the
    message at its end and every other entry is unchanged; without
    [success] the manager is unchanged. *)
Theorem loop_closure_filed_under_its_pair msg m key :
  loop_closures_at (inter_robot_loop_closure_callback msg m) key
  = if lc_success msg
       && bool_decide (key = (N.min (lc_robot0_id msg) (lc_robot1_id msg),
                              N.max (lc_robot0_id msg) (lc_robot1_id msg)))
    then loop_closures_at m key ++ [closure_factor msg]
    else loop_closures_at m key.
Proof.
  unfold inter_robot_loop_closure_callback. destruct (lc_success msg); [|done]. simpl.
  unfold loop_closures_at at 1. simpl. case_bool_decide as Hkey.
  - subst key. by rewrite lookup_insert_eq.
  - by rewrite lookup_insert_ne.
Qed.

Lemma for_each_app {A S : Type} (body : A -> S -> outcome S) (l1 l2 : list A) (st : S) :
  for_each body (l1 ++ l2) st = st' ← for_each body l1 st; for_each body l2 st'.
Proof.
  revert st. induction l1 as [|x l1 IH]; intros st; simpl; [done|].
  destruct (body x st); simpl; [apply IH|done].
Qed.

(** X26. A neighbour listed twice stops the aggregation: if the resolver
    returns, and a connected robot that sent at least one value occurs at
    two positions of the neighbour list, its values are inserted a second
    time and the aggregation fails. *)
Theorem duplicate_neighbor_stops_aggregation m connected id (before after : list N) :
  connected_robot_pose_graph m = Done connected ->
  current_neighbors_ids_ m = before ++ id :: after ->
  id ∈ after ->
  flag_at connected id = true ->
  received_values m id <> ∅ ->
  exists e, aggregate_pose_graphs m = Failed e.
Proof.
  intros Hconn Hids Hin Hflag Hvalues.
  destruct (aggregate_pose_graphs m) as [[graph estimates]|e] eqn:Hagg; [|by exists e].
  exfalso. unfold aggregate_pose_graphs in Hagg. outcome_cases. rewrite Hconn in Hagg.
  destruct (values_insert_all _ ∅) as [vs0|]; [|done].
  destruct (for_each (add_neighbor_estimates m connected) _ _) as [vs|] eqn:Hest; [|done].
  clear Hagg. rewrite Hids, for_each_app in Hest. outcome_cases.
  destruct (for_each _ before vs0) as [vs1|]; [|done]. cbn [for_each] in Hest.
  outcome_cases. unfold add_neighbor_estimates at 1 in Hest. rewrite Hflag in Hest.
  destruct (other_robots_graph_and_estimates_ m !! id) as [ge|] eqn:Hge; [|done].
  destruct (values_insert_all ge.2 vs1) as [vs2|] eqn:Hins; [|done].
  apply values_insert_all_done in Hins as [-> _].
  apply add_neighbor_estimates_done in Hest as [_ Hfresh].
  destruct (Hfresh id Hin Hflag) as (ge' & Hge' & Hkeys). simplify_eq.
  apply Hvalues. unfold received_values. rewrite Hge. apply map_empty. intros key.
  destruct (ge.2 !! key) as [value|] eqn:Hkey; [|done].
  specialize (Hkeys key (mk_is_Some _ _ Hkey)).
  apply lookup_union_None in Hkeys as [_ ?]. congruence.
Qed.

(** X19. The transitions of the optimizer state.  An event that goes through
    changes the state only in these ways: a trigger tick from [IDLE] to
    [WAITING]; a neighbours response to [POSEGRAPH_COLLECTION]; a sub-graph
    message that completes the received set to [OPTIMIZATION]; and, on a loop
    tick with estimates present, a timeout from [WAITING] to [IDLE], the
    request stage from [POSEGRAPH_COLLECTION] to [WAITING] or [IDLE], and the
    optimization from [OPTIMIZATION] to [IDLE]. *)
Theorem optimizer_state_transitions e m m' out :
  step e m = Done (m', out) ->
  optimizer_state_ m' <> optimizer_state_ m ->
  (exists now, e = ev_optimization_timer now
     /\ optimizer_state_ m = IDLE /\ optimizer_state_ m' = WAITING)
  \/ (exists ids, e = ev_current_neighbors ids
        /\ optimizer_state_ m' = POSEGRAPH_COLLECTION)
  \/ (exists msg, e = ev_pose_graph msg
        /\ check_received_pose_graphs (record_pose_graph msg m) = true
        /\ optimizer_state_ m' = OPTIMIZATION)
  \/ (exists now, e = ev_optimization_loop_timer now
        /\ current_pose_estimates_ m <> ∅
        /\ ((optimizer_state_ m = WAITING /\ optimizer_state_ m' = IDLE
             /\ (now - start_waiting_time_ m > max_waiting_time_sec_ m)%Z)
            \/ (optimizer_state_ m = POSEGRAPH_COLLECTION
                /\ optimizer_state_ m' = (if decide (current_neighbors_ids_ m = [])
                                          then IDLE else WAITING))
            \/ (optimizer_state_ m = OPTIMIZATION /\ optimizer_state_ m' = IDLE))).
Proof.
  intros Hstep%step_done Hchange.
  inversion Hstep as [msg m1 Hodo|msg|ids|ids|msg|now Hs|now Hs|now m1 out1 Hloop]; subst.
  - apply odometry_callback_done in Hodo as [_ ->]. done.
  - unfold inter_robot_loop_closure_callback in Hchange. by destruct (lc_success msg).
  - right. left. by exists ids.
  - done.
  - right. right. left. exists msg. unfold pose_graph_callback in *.
    by destruct (check_received_pose_graphs (record_pose_graph msg m)).
  - left. by exists now.
  - done.
  - right. right. right. exists now.
    inversion Hloop as [Hest|Hest Hs|Hest Hs|Hest Hs Hids|sent Hest Hs Hids Hsent
                        |result Hest Hs Hres]; subst; try done.
    + do 2 (split; [done|]). left. unfold check_waiting_timeout in *.
      case_decide; [done|]. done.
    + do 2 (split; [done|]). right. left. by rewrite decide_True.
    + do 2 (split; [done|]). right. left. by rewrite decide_False.
    + do 2 (split; [done|]). right. right. done.
Qed.

Lemma index_pairs_sorted (l : list N) (a b : N) :
  StronglySorted N.lt l -> (a, b) ∈ index_pairs l <-> a ∈ l /\ b ∈ l /\ a < b.
Proof.
  induction 1 as [|x rest Hrest IH Hall]; simpl.
  - split; [by intros ?%elem_of_nil|]. by intros [?%elem_of_nil _].
  - rewrite Forall_forall in Hall.
    rewrite elem_of_app, list_elem_of_fmap, IH, !elem_of_cons. split.
    + intros [(y & [= -> ->] & Hy)|(Ha & Hb & Hlt)]; [|by auto].
      split; [by left|]. split; [by right|]. by apply Hall.
    + intros ([-> |Ha] & [-> |Hb] & Hlt).
      * lia.
      * left. eauto.
      * apply Hall in Ha. lia.
      * right. done.
Qed.

Lemma ids_below_sorted (n : N) : StronglySorted N.lt (ids_below n).
Proof.
  unfold ids_below. generalize 0%nat as s. generalize (N.to_nat n) as k.
  induction k as [|k IH]; intros s; simpl; constructor; [apply IH|].
  apply Forall_forall. intros x (y & -> & Hy%elem_of_seq)%list_elem_of_fmap. lia.
Qed.

Lemma new_store_lookup (ps : list (N * N)) (store : gmap (N * N) (list Factor)) key :
  fold_left (fun acc p => map_insert_new (p.1, p.2) [] acc) ps store !! key
  = match store !! key with
    | Some fs => Some fs
    | None => if decide (key ∈ ps) then Some [] else None
    end.
Proof.
  revert store. induction ps as [|p ps IH]; intros store; cbn [fold_left].
  - rewrite decide_False by apply not_elem_of_nil. by destruct (store !! key).
  - rewrite IH, map_insert_new_lookup. destruct p as [i j]. simpl.
    destruct (decide (key = (i, j))) as [-> |Hne].
    + destruct (store !! (i, j)); simpl; [done|].
      rewrite decide_True; [done|left].
    + destruct (store !! key); [done|].
      destruct (decide (key ∈ ps)).
      * rewrite decide_True; [done|by right].
      * rewrite decide_False; [done|]. by intros [?|?]%elem_of_cons.
Qed.

Lemma new_flags_lookup (ids : list N) (flags : gmap N bool) (i : N) :
  fold_left (fun acc id => map_insert_new id false acc) ids flags !! i
  = match flags !! i with
    | Some b => Some b
    | None => if decide (i ∈ ids) then Some false else None
    end.
Proof.
  revert flags. induction ids as [|id ids IH]; intros flags; cbn [fold_left].
  - rewrite decide_False by apply not_elem_of_nil. by destruct (flags !! i).
  - rewrite IH, map_insert_new_lookup.
    destruct (decide (i = id)) as [-> |Hne].
    + destruct (flags !! id); simpl; [done|].
      rewrite decide_True; [done|left].
    + destruct (flags !! i); [done|].
      destruct (decide (i ∈ ids)).
      * rewrite decide_True; [done|by right].
      * rewrite decide_False; [done|]. by intros [?|?]%elem_of_cons.
Qed.

(** X27. The constructor.  A new manager has an empty loop-closure entry for
    exactly the pairs [(i, j)] with [i < j < nb_robots], a cleared received
    flag for exactly the ids below [nb_robots], no local graph, estimates,
    neighbours or recorded sub-graphs, a timeout of the given number of
    seconds, and is idle. *)
Theorem constructor_initial_state nb_robots robot_id max_waiting_param :
  let m := PoseGraphManager_new nb_robots robot_id max_waiting_param in
  (forall i j, inter_robot_loop_closures_ m !! (i, j)
               = if decide (i < j /\ j < nb_robots) then Some [] else None)
  /\ (forall i, received_pose_graphs_ m !! i
                = if decide (i < nb_robots) then Some false else None)
  /\ pose_graph_ m = [] /\ current_pose_estimates_ m = ∅
  /\ latest_local_symbol_ m = default_symbol
  /\ current_neighbors_ids_ m = []
  /\ other_robots_graph_and_estimates_ m = ∅
  /\ received_pose_graphs_connectivity_ m = ∅
  /\ max_waiting_time_sec_ m = (max_waiting_param * 1000000000)%Z
  /\ optimizer_state_ m = IDLE /\ is_waiting_ m = false.
Proof.
  intros m. split; [|split; [|done]].
  - intros i j. unfold m. simpl.
    rewrite (for_pairs_index_pairs (fun i j store => map_insert_new (i, j) [] store)).
    rewrite new_store_lookup, lookup_empty.
    destruct (decide ((i, j) ∈ index_pairs (ids_below nb_robots))) as [Hin|Hnotin].
    + apply index_pairs_sorted in Hin as (_ & Hj%ids_below_elem & Hlt);
        [|apply ids_below_sorted].
      by rewrite decide_True.
    + rewrite decide_False; [done|]. intros [Hlt Hj]. apply Hnotin.
      apply index_pairs_sorted; [apply ids_below_sorted|].
      rewrite !ids_below_elem. lia.
  - intros i. unfold m. simpl. rewrite new_flags_lookup, lookup_empty.
    destruct (decide (i ∈ ids_below nb_robots)) as [Hin|Hnotin].
    + apply ids_below_elem in Hin. by rewrite decide_True.
    + rewrite decide_False; [done|]. by rewrite <- ids_below_elem.
Qed.

End MoreFacts.

(** * The further properties on the small fleet *)

Section MoreFleetFacts.
Import Fleet.

(** Decides a closed decidable proposition by running its decision. *)
Ltac decide_it := apply (bool_decide_unpack _); vm_compute; reflexivity.

Lemma one_of_two (x a b : N) : x ∈ [a; b] -> x = a \/ x = b.
Proof. intros [-> |[-> |?%elem_of_nil]%elem_of_cons]%elem_of_cons; auto. done. Qed.

(** Splits membership in a list of two into its cases. *)
Ltac member_cases H := apply one_of_two in H as [-> | ->].

Lemma collected_run : (run round_events (PoseGraphManager_new 8 0 60)).2 = Done collected.
Proof. evaluate. Qed.

Lemma collected_connected :
  connected_robot_pose_graph collected = Done (connected_of collected).
Proof. evaluate. Qed.

Lemma collected_joint : aggregate_pose_graphs collected = Done (joint_of collected).
Proof. evaluate. Qed.

Lemma collected_neighbors : current_neighbors_ids_ collected = [1; 2].
Proof. evaluate. Qed.

(** X1 on keyframes that arrive out of order. *)
Lemma odometry_accepts_exactly_distinct_ids_witness :
  current_pose_estimates_ robot0 = ∅
  /\ ((exists m', for_each odometry_callback shuffled_keyframes robot0 = Done m')
      <-> NoDup (map kf_id shuffled_keyframes)).
Proof.
  split; [evaluate|].
  apply (odometry_accepts_exactly_distinct_ids robot0 shuffled_keyframes). evaluate.
Defined.

(** X2 on the collected round. *)
Lemma local_graph_has_one_edge_less_witness :
  to_uchar GRAPH_LABEL <> 0
  /\ (run round_events (PoseGraphManager_new 8 0 60)).2 = Done collected
  /\ length (pose_graph_ collected) = (size (current_pose_estimates_ collected) - 1)%nat.
Proof.
  assert (to_uchar GRAPH_LABEL <> 0) as Hg by (vm_compute; discriminate).
  split; [exact Hg|]. split; [exact collected_run|].
  apply (local_graph_has_one_edge_less 8 0 60 round_events collected Hg collected_run).
Defined.

(** X3 on the collected round. *)
Lemma local_factors_link_own_estimates_witness :
  (run round_events (PoseGraphManager_new 8 0 60)).2 = Done collected
  /\ forall f, f ∈ pose_graph_ collected ->
       exists i j measured,
         f = BetweenFactor (local_symbol collected i) (local_symbol collected j) measured
               default_noise_model_
         /\ i <> j
         /\ is_Some (current_pose_estimates_ collected !! local_symbol collected i)
         /\ is_Some (current_pose_estimates_ collected !! local_symbol collected j).
Proof.
  split; [exact collected_run|].
  apply (local_factors_link_own_estimates 8 0 60 round_events collected collected_run).
Defined.

(** X4 on the collected round. *)
Lemma run_grows_witness :
  (run round_events robot0).2 = Done collected /\ grows robot0 collected.
Proof.
  split; [exact collected_run|].
  apply (run_grows round_events robot0 collected collected_run).
Defined.

(** X5 on the collected round. *)
Lemma store_entries_link_their_pair_witness :
  reachable 8 0 60 collected
  /\ forall key f, f ∈ loop_closures_at collected key ->
       key.1 <= key.2
       /\ exists key1 key2 measured,
            f = BetweenFactor key1 key2 measured default_noise_model_
            /\ sym_chr key1 = to_uchar GRAPH_LABEL /\ sym_chr key2 = to_uchar GRAPH_LABEL
            /\ ((robot_of key1 = key.1 /\ robot_of key2 = key.2)
                \/ (robot_of key1 = key.2 /\ robot_of key2 = key.1)).
Proof.
  split; [exact collected_reachable|].
  apply (store_entries_link_their_pair 8 0 60 collected collected_reachable).
Defined.

(** X10 on the collected round, for robot 1. *)
Lemma received_flag_means_recorded_witness :
  (run round_events (PoseGraphManager_new 8 0 60)).2 = Done collected
  /\ 1 < nb_robots_ collected
  /\ received_pose_graphs_ collected !! 1 = Some true
  /\ is_Some (other_robots_graph_and_estimates_ collected !! 1)
  /\ is_Some (received_pose_graphs_connectivity_ collected !! 1).
Proof.
  assert (1 < nb_robots_ collected) as Hlt by (by vm_compute).
  assert (received_pose_graphs_ collected !! 1 = Some true) as Hflag by evaluate.
  split; [exact collected_run|]. split; [exact Hlt|]. split; [exact Hflag|].
  apply (received_flag_means_recorded 8 0 60 round_events collected collected_run 1 Hlt Hflag).
Defined.

(** X11 on the collected round, for robot 2. *)
Lemma optimization_only_after_all_answers_witness :
  (run round_events (PoseGraphManager_new 8 0 60)).2 = Done collected
  /\ optimizer_state_ collected = OPTIMIZATION
  /\ 2 ∈ current_neighbors_ids_ collected
  /\ received_pose_graphs_ collected !! 2 = Some true
  /\ (2 < nb_robots_ collected ->
      is_Some (other_robots_graph_and_estimates_ collected !! 2)).
Proof.
  assert (optimizer_state_ collected = OPTIMIZATION) as Hstate by evaluate.
  assert (2 ∈ current_neighbors_ids_ collected) as Hin
    by (rewrite collected_neighbors; right; left).
  split; [exact collected_run|]. split; [exact Hstate|]. split; [exact Hin|].
  apply (optimization_only_after_all_answers 8 0 60 round_events collected
           collected_run Hstate 2 Hin).
Defined.

(** X12 on the collected round. *)
Lemma is_waiting_iff_waiting_state_witness :
  (run round_events (PoseGraphManager_new 8 0 60)).2 = Done collected
  /\ (is_waiting_ collected = true <-> optimizer_state_ collected = WAITING).
Proof.
  split; [exact collected_run|].
  apply (is_waiting_iff_waiting_state 8 0 60 round_events collected collected_run).
Defined.

Lemma collecting_estimates : current_pose_estimates_ collecting <> ∅.
Proof.
  intros Hempty.
  assert (current_pose_estimates_ collecting !! symbol_of 0 0 = Some 0%Z) as Hkey
    by evaluate.
  rewrite Hempty, lookup_empty in Hkey. discriminate Hkey.
Qed.


(** X13 on robot 0 after the neighbours response: both neighbours are below
    the fleet size and get a request. *)
Lemma loop_tick_requests_sub_graphs_witness :
  current_pose_estimates_ collecting <> ∅
  /\ optimizer_state_ collecting = POSEGRAPH_COLLECTION
  /\ (Forall (fun id => id < nb_robots_ collecting) (current_neighbors_ids_ collecting) ->
        optimization_loop_callback 5 collecting
        = if decide (current_neighbors_ids_ collecting = [])
          then Done (with_optimizer_state collecting IDLE, [pub_optimizer_state IDLE])
          else Done (start_waiting 5 collecting,
                     map (request_to collecting) (current_neighbors_ids_ collecting)
                     ++ [pub_optimizer_state WAITING]))
  /\ (~ Forall (fun id => id < nb_robots_ collecting) (current_neighbors_ids_ collecting) ->
        optimization_loop_callback 5 collecting = Failed NullPointer).
Proof.
  assert (optimizer_state_ collecting = POSEGRAPH_COLLECTION) as Hstate by evaluate.
  split; [exact collecting_estimates|]. split; [exact Hstate|].
  apply (loop_tick_requests_sub_graphs 5 collecting collecting_estimates Hstate).
Defined.


Lemma waiting_estimates : current_pose_estimates_ waiting_with_estimates <> ∅.
Proof.
  intros Hempty.
  assert (current_pose_estimates_ waiting_with_estimates !! symbol_of 0 0 = Some 0%Z)
    as Hkey by evaluate.
  rewrite Hempty, lookup_empty in Hkey. discriminate Hkey.
Qed.

(** X15 at the deadline itself: 60 seconds after the wait started the round
    is still waiting. *)
Lemma loop_tick_before_deadline_witness :
  current_pose_estimates_ waiting_with_estimates <> ∅
  /\ optimizer_state_ waiting_with_estimates = WAITING
  /\ (60000000000 - start_waiting_time_ waiting_with_estimates
      <= max_waiting_time_sec_ waiting_with_estimates)%Z
  /\ optimization_loop_callback 60000000000 waiting_with_estimates
     = Done (waiting_with_estimates, [pub_optimizer_state WAITING]).
Proof.
  assert (optimizer_state_ waiting_with_estimates = WAITING) as Hstate by evaluate.
  assert (60000000000 - start_waiting_time_ waiting_with_estimates
          <= max_waiting_time_sec_ waiting_with_estimates)%Z as Hearly
    by (vm_compute; discriminate).
  split; [exact waiting_estimates|]. split; [exact Hstate|]. split; [exact Hearly|].
  apply (loop_tick_before_deadline 60000000000 waiting_with_estimates
           waiting_estimates Hstate Hearly).
Defined.

Lemma collected_tick :
  step (ev_optimization_loop_timer 5) collected
  = Done (with_optimizer_state collected IDLE,
          [result_message collected (joint_of collected); pub_optimizer_state IDLE]).
Proof. evaluate. Qed.

(** X16 on the loop tick that ends the collected round. *)
Lemma result_only_from_optimization_state_witness :
  step (ev_optimization_loop_timer 5) collected
  = Done (with_optimizer_state collected IDLE,
          [result_message collected (joint_of collected); pub_optimizer_state IDLE])
  /\ result_message collected (joint_of collected)
     ∈ [result_message collected (joint_of collected); pub_optimizer_state IDLE]
  /\ is_optimization_result (result_message collected (joint_of collected)) = true
  /\ exists now joint,
       ev_optimization_loop_timer 5 = ev_optimization_loop_timer now
       /\ optimizer_state_ collected = OPTIMIZATION
       /\ current_pose_estimates_ collected <> ∅
       /\ optimizer_state_ (with_optimizer_state collected IDLE) = IDLE
       /\ aggregate_pose_graphs collected = Done joint
       /\ result_message collected (joint_of collected) = result_message collected joint.
Proof.
  assert (result_message collected (joint_of collected)
          ∈ [result_message collected (joint_of collected); pub_optimizer_state IDLE])
    as Hin by left.
  split; [exact collected_tick|]. split; [exact Hin|]. split; [reflexivity|].
  apply (result_only_from_optimization_state (ev_optimization_loop_timer 5) collected
           (with_optimizer_state collected IDLE)
           [result_message collected (joint_of collected); pub_optimizer_state IDLE]
           (result_message collected (joint_of collected)) collected_tick Hin).
  reflexivity.
Defined.

Lemma first_trigger :
  step (ev_optimization_timer 0) robot0
  = Done (waiting_without_estimates, [pub_get_current_neighbors]).
Proof. evaluate. Qed.

(** X17 on the first trigger tick of robot 0. *)
Lemma new_round_only_from_idle_witness :
  step (ev_optimization_timer 0) robot0
  = Done (waiting_without_estimates, [pub_get_current_neighbors])
  /\ pub_get_current_neighbors ∈ [pub_get_current_neighbors]
  /\ exists now,
       ev_optimization_timer 0 = ev_optimization_timer now
       /\ optimizer_state_ robot0 = IDLE
       /\ [pub_get_current_neighbors] = [pub_get_current_neighbors]
       /\ optimizer_state_ waiting_without_estimates = WAITING
       /\ is_waiting_ waiting_without_estimates = true
       /\ start_waiting_time_ waiting_without_estimates = now
       /\ other_robots_graph_and_estimates_ waiting_without_estimates = ∅
       /\ received_pose_graphs_connectivity_ waiting_without_estimates = ∅.
Proof.
  assert (pub_get_current_neighbors ∈ [pub_get_current_neighbors]) as Hin by left.
  split; [exact first_trigger|]. split; [exact Hin|].
  apply (new_round_only_from_idle (ev_optimization_timer 0) robot0
           waiting_without_estimates [pub_get_current_neighbors] first_trigger Hin).
Defined.

Lemma collected_loop :
  optimization_loop_callback 5 collected
  = Done (with_optimizer_state collected IDLE,
          [result_message collected (joint_of collected); pub_optimizer_state IDLE]).
Proof. evaluate. Qed.

(** X18 on the loop tick that ends the collected round. *)
Lemma loop_tick_publishes_final_state_witness :
  optimization_loop_callback 5 collected
  = Done (with_optimizer_state collected IDLE,
          [result_message collected (joint_of collected); pub_optimizer_state IDLE])
  /\ exists before,
       [result_message collected (joint_of collected); pub_optimizer_state IDLE]
       = before ++ [pub_optimizer_state
                      (optimizer_state_ (with_optimizer_state collected IDLE))]
       /\ forall p state, p ∈ before -> p <> pub_optimizer_state state.
Proof.
  split; [exact collected_loop|].
  apply (loop_tick_publishes_final_state 5 collected _ _ collected_loop).
Defined.

(** X19 on the first trigger tick of robot 0. *)
Lemma optimizer_state_transitions_witness :
  step (ev_optimization_timer 0) robot0
  = Done (waiting_without_estimates, [pub_get_current_neighbors])
  /\ optimizer_state_ waiting_without_estimates <> optimizer_state_ robot0
  /\ ((exists now, ev_optimization_timer 0 = ev_optimization_timer now
         /\ optimizer_state_ robot0 = IDLE
         /\ optimizer_state_ waiting_without_estimates = WAITING)
      \/ (exists ids, ev_optimization_timer 0 = ev_current_neighbors ids
            /\ optimizer_state_ waiting_without_estimates = POSEGRAPH_COLLECTION)
      \/ (exists msg, ev_optimization_timer 0 = ev_pose_graph msg
            /\ check_received_pose_graphs (record_pose_graph msg robot0) = true
            /\ optimizer_state_ waiting_without_estimates = OPTIMIZATION)
      \/ (exists now, ev_optimization_timer 0 = ev_optimization_loop_timer now
            /\ current_pose_estimates_ robot0 <> ∅
            /\ ((optimizer_state_ robot0 = WAITING
                 /\ optimizer_state_ waiting_without_estimates = IDLE
                 /\ (now - start_waiting_time_ robot0 > max_waiting_time_sec_ robot0)%Z)
                \/ (optimizer_state_ robot0 = POSEGRAPH_COLLECTION
                    /\ optimizer_state_ waiting_without_estimates
                       = (if decide (current_neighbors_ids_ robot0 = [])
                          then IDLE else WAITING))
                \/ (optimizer_state_ robot0 = OPTIMIZATION
                    /\ optimizer_state_ waiting_without_estimates = IDLE)))).
Proof.
  assert (optimizer_state_ waiting_without_estimates <> optimizer_state_ robot0) as Hne.
  { assert (optimizer_state_ waiting_without_estimates = WAITING) as -> by evaluate.
    assert (optimizer_state_ robot0 = IDLE) as -> by evaluate. discriminate. }
  split; [exact first_trigger|]. split; [exact Hne|].
  apply (optimizer_state_transitions (ev_optimization_timer 0) robot0
           waiting_without_estimates [pub_get_current_neighbors] first_trigger Hne).
Defined.

(** X20 on robot 0 before it has received its own answer. *)
Lemma search_without_own_declaration_witness :
  connectivity_at collecting (robot_id_ collecting) = []
  /\ robot_id_ collecting < N.of_nat (length (current_neighbors_ids_ collecting))
  /\ exists connected, connected_robot_pose_graph collecting = Done connected
       /\ forall id, flag_at connected id = true <-> id = robot_id_ collecting.
Proof.
  assert (connectivity_at collecting (robot_id_ collecting) = []) as Hnone by evaluate.
  assert (robot_id_ collecting < N.of_nat (length (current_neighbors_ids_ collecting)))
    as Hlt by (by vm_compute).
  split; [exact Hnone|]. split; [exact Hlt|].
  apply (search_without_own_declaration collecting Hnone Hlt).
Defined.

(** X21 on the collected round with ten units of fuel. *)
Lemma search_terminates_witness :
  (S (length (current_neighbors_ids_ collected)) <= 10)%nat
  /\ connected_robot_pose_graph_fuel 10 collected = connected_robot_pose_graph collected
  /\ connected_robot_pose_graph collected <> Failed OutOfFuel.
Proof.
  assert (S (length (current_neighbors_ids_ collected)) <= 10)%nat as Hfuel
    by (rewrite collected_neighbors; simpl; lia).
  split; [exact Hfuel|].
  apply (search_terminates collected 10 Hfuel).
Defined.

(** X23 on the collected round. *)
Lemma joint_graph_closed_form_witness :
  aggregate_pose_graphs collected = Done ((joint_of collected).1, (joint_of collected).2)
  /\ connected_robot_pose_graph collected = Done (connected_of collected)
  /\ (joint_of collected).1
     = pose_graph_ collected
       ++ flat_map (connected_closures collected (connected_of collected))
            (index_pairs (current_neighbors_ids_ collected ++ [robot_id_ collected]))
       ++ flat_map (fun id => List.filter (both_connected (connected_of collected))
                                (received_edges collected id))
            (current_neighbors_ids_ collected).
Proof.
  assert (aggregate_pose_graphs collected
          = Done ((joint_of collected).1, (joint_of collected).2)) as Hagg by evaluate.
  split; [exact Hagg|]. split; [exact collected_connected|].
  apply (joint_graph_closed_form collected _ _ _ Hagg collected_connected).
Defined.

(** X24 on the collected round. *)
Lemma joint_estimates_from_connected_robots_witness :
  aggregate_pose_graphs collected = Done ((joint_of collected).1, (joint_of collected).2)
  /\ connected_robot_pose_graph collected = Done (connected_of collected)
  /\ forall key value,
       (joint_of collected).2 !! key = Some value
       <-> current_pose_estimates_ collected !! key = Some value
           \/ exists id, id ∈ current_neighbors_ids_ collected
                /\ flag_at (connected_of collected) id = true
                /\ received_values collected id !! key = Some value.
Proof.
  assert (aggregate_pose_graphs collected
          = Done ((joint_of collected).1, (joint_of collected).2)) as Hagg by evaluate.
  split; [exact Hagg|]. split; [exact collected_connected|].
  apply (joint_estimates_from_connected_robots collected _ _ _ Hagg collected_connected).
Defined.

Lemma collected_entries id :
  id ∈ current_neighbors_ids_ collected ->
  is_Some (other_robots_graph_and_estimates_ collected !! id).
Proof. rewrite collected_neighbors. intros Hin. member_cases Hin; decide_it. Qed.

Lemma collected_between id f :
  id ∈ current_neighbors_ids_ collected -> f ∈ received_edges collected id ->
  is_between f = true.
Proof.
  rewrite collected_neighbors. intros Hin. revert f. apply Forall_forall.
  member_cases Hin; decide_it.
Qed.

Lemma collected_apart_from_self id :
  id ∈ current_neighbors_ids_ collected -> flag_at (connected_of collected) id = true ->
  received_values collected id ##ₘ current_pose_estimates_ collected.
Proof. rewrite collected_neighbors. intros Hin _. member_cases Hin; decide_it. Qed.

Lemma collected_apart id1 id2 :
  id1 ∈ current_neighbors_ids_ collected -> id2 ∈ current_neighbors_ids_ collected ->
  id1 <> id2 ->
  flag_at (connected_of collected) id1 = true ->
  flag_at (connected_of collected) id2 = true ->
  received_values collected id1 ##ₘ received_values collected id2.
Proof.
  rewrite collected_neighbors. intros Hin1 Hin2 Hne _ _.
  member_cases Hin1; member_cases Hin2; try (destruct Hne; reflexivity); decide_it.
Qed.

(** X25 on the collected round. *)
Lemma aggregation_goes_through_witness :
  connected_robot_pose_graph collected = Done (connected_of collected)
  /\ NoDup (current_neighbors_ids_ collected)
  /\ (forall id, id ∈ current_neighbors_ids_ collected ->
        is_Some (other_robots_graph_and_estimates_ collected !! id))
  /\ (forall id f, id ∈ current_neighbors_ids_ collected ->
        f ∈ received_edges collected id -> is_between f = true)
  /\ (forall id, id ∈ current_neighbors_ids_ collected ->
        flag_at (connected_of collected) id = true ->
        received_values collected id ##ₘ current_pose_estimates_ collected)
  /\ (forall id1 id2, id1 ∈ current_neighbors_ids_ collected ->
        id2 ∈ current_neighbors_ids_ collected -> id1 <> id2 ->
        flag_at (connected_of collected) id1 = true ->
        flag_at (connected_of collected) id2 = true ->
        received_values collected id1 ##ₘ received_values collected id2)
  /\ exists joint, aggregate_pose_graphs collected = Done joint.
Proof.
  assert (NoDup (current_neighbors_ids_ collected)) as Hnd by decide_it.
  split; [exact collected_connected|]. split; [exact Hnd|].
  split; [exact collected_entries|]. split; [exact collected_between|].
  split; [exact collected_apart_from_self|]. split; [exact collected_apart|].
  apply (aggregation_goes_through collected (connected_of collected) collected_connected
           Hnd collected_entries collected_between collected_apart_from_self
           collected_apart).
Defined.

(** X26 on the round in which robot 1 is listed twice. *)
Lemma duplicate_neighbor_stops_aggregation_witness :
  connected_robot_pose_graph doubled_neighbor = Done (connected_of doubled_neighbor)
  /\ current_neighbors_ids_ doubled_neighbor = [] ++ 1 :: [1]
  /\ 1 ∈ [1]
  /\ flag_at (connected_of doubled_neighbor) 1 = true
  /\ received_values doubled_neighbor 1 <> ∅
  /\ exists e, aggregate_pose_graphs doubled_neighbor = Failed e.
Proof.
  assert (connected_robot_pose_graph doubled_neighbor
          = Done (connected_of doubled_neighbor)) as Hconn by evaluate.
  assert (current_neighbors_ids_ doubled_neighbor = [] ++ 1 :: [1]) as Hids by evaluate.
  assert (1 ∈ [1]) as Hin by left.
  assert (flag_at (connected_of doubled_neighbor) 1 = true) as Hflag by evaluate.
  assert (received_values doubled_neighbor 1 <> ∅) as Hvalues.
  { intros Hempty.
    assert (received_values doubled_neighbor 1 !! symbol_of 1 0 = Some 0%Z) as Hkey
      by evaluate.
    rewrite Hempty, lookup_empty in Hkey. discriminate Hkey. }
  split; [exact Hconn|]. split; [exact Hids|]. split; [exact Hin|].
  split; [exact Hflag|]. split; [exact Hvalues|].
  apply (duplicate_neighbor_stops_aggregation doubled_neighbor
           (connected_of doubled_neighbor) 1 [] [1] Hconn Hids Hin Hflag Hvalues).
Defined.

End MoreFleetFacts.
